(** * Lab-record PDF layout engine (qpp5.py): a shallow embedding

    The development follows [src/qpp5.py]:
    - [PyStr]: the Python string operations the code relies on
      ([str.strip], [str.lower], [str.split], [in], [html.escape],
      decimal formatting of an [int] in an f-string);
    - [Re]: a backtracking matcher for the fragment of [re] the two patterns
      of [generate_pdf] live in, and [re.sub] with a pattern anchored by [^];
    - [Normalizer]: the "ALGORITHM PROCESSOR" of [generate_pdf];
    - [Layout]: [PushToBottomSpacer.wrap];
    - [Pdf]: the block sequence ([story]) and the page decorations.

    Conventions.  A Python [str] is a list of characters; characters are the
    code points below 256 (Rocq's [ascii]), and the character classes are
    Python's restricted to that range.  Python floats are idealised as exact
    rationals ([Q]); lengths are in points ([inch] = 72). *)

From Stdlib Require Import QArith Lqa Ascii String DecimalString DecimalNat DecimalFacts.
From stdpp Require Import gmap strings list.

Close Scope Q_scope.
Local Open Scope list_scope.

(** ** Python strings *)

Module PyStr.

Abbreviation str := (list ascii).

(** A string literal of the source. *)
Definition lit (s : string) : str := list_ascii_of_string s.

Definition code (c : ascii) : nat := nat_of_ascii c.

(** [str.isspace] on one character, which is also the class [\s] of [re] for
    a [str] pattern: TAB, LF, VT, FF, CR, FS, GS, RS, US, SPACE, NEL, NBSP. *)
Definition is_space (c : ascii) : bool :=
  let n := code c in
  ((9 <=? n) && (n <=? 13)) || ((28 <=? n) && (n <=? 32))
  || (n =? 133) || (n =? 160).

(** The class [\d] of [re]: the decimal digits (below 256 only [0]-[9]). *)
Definition is_digit (c : ascii) : bool :=
  let n := code c in (48 <=? n) && (n <=? 57).

(** [str.lower] on one character: [A]-[Z] and the Latin-1 capitals
    (0xC0-0xDE except the multiplication sign 0xD7) move up by 32. *)
Definition lower_char (c : ascii) : ascii :=
  let n := code c in
  if ((65 <=? n) && (n <=? 90))
     || ((192 <=? n) && (n <=? 222) && negb (n =? 215))
  then ascii_of_nat (n + 32) else c.

Definition lower (s : str) : str := map lower_char s.

Fixpoint lstrip (s : str) : str :=
  match s with
  | c :: s' => if is_space c then lstrip s' else s
  | [] => []
  end.

Definition rstrip (s : str) : str := reverse (lstrip (reverse s)).

(** [s.strip()] *)
Definition strip (s : str) : str := rstrip (lstrip s).

(** [s.startswith(p)] *)
Fixpoint startswith (p s : str) : bool :=
  match p, s with
  | [], _ => true
  | a :: p', b :: s' => bool_decide (a = b) && startswith p' s'
  | _ :: _, [] => false
  end.

(** [sub in s] *)
Fixpoint contains (sub s : str) : bool :=
  startswith sub s ||
  match s with
  | [] => false
  | _ :: s' => contains sub s'
  end.

(** [s.split(sep)] for a non-empty [sep]: the leftmost occurrences of [sep],
    not overlapping, cut the string.  [skip] counts the characters of a
    separator still to be passed over; [cur] is the current piece, reversed. *)
Fixpoint split_go (sep : str) (s : str) (skip : nat) (cur : str) : list str :=
  match s with
  | [] => [reverse cur]
  | c :: s' =>
      match skip with
      | S k => split_go sep s' k cur
      | O =>
          if startswith sep s
          then reverse cur :: split_go sep s' (length sep - 1) []
          else split_go sep s' 0 (c :: cur)
      end
  end.

Definition split (sep s : str) : list str := split_go sep s 0 [].

(** [sep.join(l)] *)
Fixpoint join (sep : str) (l : list str) : str :=
  match l with
  | [] => []
  | [x] => x
  | x :: l' => x ++ sep ++ join sep l'
  end.

(** [s.replace(old, new)] for a non-empty [old]. *)
Definition replace (old new s : str) : str := join new (split old s).

(** [html.escape(s)] (with [quote=True], the default). *)
Definition escape_char (c : ascii) : str :=
  if bool_decide (c = "&"%char) then lit "&amp;"
  else if bool_decide (c = "<"%char) then lit "&lt;"
  else if bool_decide (c = ">"%char) then lit "&gt;"
  else if bool_decide (c = "034"%char) then lit "&quot;"
  else if bool_decide (c = "'"%char) then lit "&#x27;"
  else [c].

Definition escape (s : str) : str := flat_map escape_char s.

(** The decimal numeral of a natural number, as [f"{n}"] prints it. *)
Definition dec (n : nat) : str :=
  lit (NilEmpty.string_of_uint (Nat.to_uint n)).

(** The line feed. *)
Definition LF : str := ["010"%char].

End PyStr.

Import PyStr.

(** ** The fragment of [re] used by [generate_pdf] *)

Module Re.

(** Both patterns are a sequence of single characters (or classes) and of
    greedy repetitions of a class. *)
Inductive item : Type :=
  | One (cls : ascii -> bool)      (* a character or a class *)
  | Star (cls : ascii -> bool)     (* cls*  *)
  | Plus (cls : ascii -> bool).    (* cls+  *)

Definition pattern := list item.

(** A literal under [re.IGNORECASE]. *)
Definition ci (c : ascii) : ascii -> bool :=
  fun a => bool_decide (lower_char a = lower_char c).

(** A literal word under [re.IGNORECASE]. *)
Definition word (w : string) : pattern := map (fun c => One (ci c)) (lit w).

(** The class [[:\-\.]]. *)
Definition is_sep (c : ascii) : bool :=
  bool_decide (c = ":"%char) || bool_decide (c = "-"%char)
  || bool_decide (c = "."%char).

(** [match_at p s]: match [p] at the start of [s], as the backtracking engine
    does: a repetition first takes as many characters as it can and gives
    them back one at a time while the rest of the pattern fails.  The result
    is what is left of [s] after the match. *)
Fixpoint star (cls : ascii -> bool) (k : str -> option str) (s : str) : option str :=
  match s with
  | a :: s' =>
      if cls a then
        match star cls k s' with
        | Some r => Some r
        | None => k s
        end
      else k s
  | [] => k []
  end.

Fixpoint match_at (p : pattern) : str -> option str :=
  match p with
  | [] => fun s => Some s
  | One cls :: p' => fun s =>
      match s with
      | a :: s' => if cls a then match_at p' s' else None
      | [] => None
      end
  | Star cls :: p' => star cls (match_at p')
  | Plus cls :: p' => fun s =>
      match s with
      | a :: s' => if cls a then star cls (match_at p') s' else None
      | [] => None
      end
  end.

(** [re.sub('^' + p, '', s)]: without [re.MULTILINE] the anchor holds at the
    start of the string only, so at most one match is replaced. *)
Definition sub_start (p : pattern) (s : str) : str :=
  match match_at p s with
  | Some rest => rest
  | None => s
  end.

(** [r'^step\s*\d+\s*[:\-\.]\s*'] with [re.IGNORECASE] *)
Definition step_label : pattern :=
  word "step" ++ [Star is_space; Plus is_digit; Star is_space; One is_sep; Star is_space].

(** [r'^\s*output\s*[:\-\.]*\s*'] with [re.IGNORECASE] *)
Definition output_label : pattern :=
  [Star is_space] ++ word "output" ++ [Star is_space; Star is_sep; Star is_space].

End Re.

(** ** The algorithm processor of [generate_pdf] *)

Module Normalizer.

(** [re.sub(r'^step\s*\d+\s*[:\-\.]\s*', '', line, flags=re.IGNORECASE).strip()] *)
Definition line_clean (line : str) : str :=
  strip (Re.sub_start Re.step_label line).

(** The test that drops a user-written start or stop line. *)
Definition is_boilerplate (clean : str) : bool :=
  let lower_line := lower clean in
  contains (lit "start the program") lower_line
  || contains (lit "stop the program") lower_line.

(** One iteration of the loop over [alg_raw.split('\n')]; [processed_lines]
    is the list the loop appends to. *)
Definition process_line (processed_lines : list str) (line : str) : list str :=
  let line := strip line in
  if bool_decide (line = []) then processed_lines
  else
    let clean := line_clean line in
    if is_boilerplate clean then processed_lines
    else if negb (bool_decide (clean = []))
            && negb (bool_decide (clean ∈ processed_lines))
    then processed_lines ++ [clean]
    else processed_lines.

Definition processed_lines (alg_raw : str) : list str :=
  fold_left process_line (split LF alg_raw) [].

(** [f"Step {i+2}: {html.escape(line)}<br/>"] *)
Definition step_html (i : nat) (line : str) : str :=
  lit "Step " ++ dec (i + 2) ++ lit ": " ++ escape line ++ lit "<br/>".

(** The two loops that build [alg_html] from the processed lines. *)
Definition render (processed : list str) : str :=
  let alg_html := lit "Step 1: Start the program<br/>" in
  let alg_html :=
    fold_left (fun acc il => acc ++ step_html (fst il) (snd il))
              (imap pair processed) alg_html in
  alg_html ++ lit "Step " ++ dec (length processed + 2) ++ lit ": Stop the program".

Definition alg_html (alg_raw : str) : str := render (processed_lines alg_raw).

End Normalizer.

(** ** [PushToBottomSpacer] *)

Module Layout.

Local Open Scope Q_scope.

(** [reportlab.lib.units.inch] *)
Definition inch : Q := 72.

(** What [PushToBottomSpacer.wrap] asks of the elements it pushes: the
    [wrap] method of a flowable, from the available width and height to the
    width and height it takes. *)
Class Flowable (F : Type) := el_wrap : F -> Q -> Q -> Q * Q.

Record PushToBottomSpacer (F : Type) := mkSpacer {
  elements_to_push : list F;
  height : Q;                   (* [self.height] *)
}.
Arguments mkSpacer {F}.
Arguments elements_to_push {F}.
Arguments height {F}.

Section Wrap.
Context {F : Type} `{Flowable F}.

(** The loop [for el in self.elements_to_push: w, eh = el.wrap(...); h += eh]. *)
Definition measure (els : list F) (availWidth availHeight : Q) : Q :=
  fold_left (fun h el => h + snd (el_wrap el availWidth availHeight)) els 0.

(** [wrap] returns the spacer with its [height] attribute set, and the pair
    it reports to the layout engine. *)
Definition wrap (self : PushToBottomSpacer F) (availWidth availHeight : Q)
  : PushToBottomSpacer F * (Q * Q) :=
  let h := measure (elements_to_push self) availWidth availHeight in
  let total_needed := h + (5 # 100) * inch in
  let self :=
    if Qlt_le_dec availHeight total_needed
    then mkSpacer (elements_to_push self) (availHeight + 10)
    else mkSpacer (elements_to_push self) (availHeight - total_needed) in
  (self, (availWidth, height self)).

End Wrap.

End Layout.

(** ** The block sequence and the page decorations of [generate_pdf] *)

Module Pdf.

Import Layout.

(** The [ParagraphStyle] objects of [generate_pdf], by the name of the
    variable that holds them; [turbo_c_style] is the terminal-like one
    (Courier-Bold, light grey on black). *)
Inductive style : Type :=
  | table_left | table_center | heading_style | body_style | turbo_c_style.

Inductive cell : Type :=
  | CellParagraph (text : str) (st : style)
  | CellStr (text : str).

#[local] Set Warnings "-register-all".

(** The flowables the story is made of.  The [TableStyle] commands of the
    header table (grid, span, alignment, padding) are left out. *)
Inductive flowable : Type :=
  | Paragraph (text : str) (st : style)
  | Spacer (width height : Q)
  | Table (data : list (list cell)) (colWidths : list Q)
  | KeepTogether (flowables : list flowable)
  | PushToBottom (elements_to_push : list flowable).

(** The request body: a JSON object with text fields. *)
Abbreviation record := (gmap string str).

(** [data.get(key, default)] *)
Definition get (data : record) (key : string) (dflt : str) : str :=
  match data !! key with
  | Some v => v
  | None => dflt
  end.

(** The truth value of [data.get(key)]: the field is there and not empty. *)
Definition truthy (data : record) (key : string) : bool :=
  match data !! key with
  | Some v => negb (bool_decide (v = []))
  | None => false
  end.

(** [safe_text] *)
Definition safe_text (text : str) : str :=
  if bool_decide (text = []) then []
  else replace LF (lit "<br/>") (escape text).

(** [reportlab.lib.pagesizes.A4]: 210 mm by 297 mm, in points. *)
Definition A4 : Q * Q := ((210 * (72 / (254 # 10)))%Q, (297 * (72 / (254 # 10)))%Q).

Definition margin_x : Q := ((5 # 10) * inch)%Q.

Definition nbsp5 : str := lit "&nbsp;&nbsp;&nbsp;&nbsp;&nbsp;".

Definition header_table (data : record) : flowable :=
  let date_str := strip (safe_text (get data "date" [])) in
  let date_str :=
    if bool_decide (date_str = []) then concat (replicate 10 (lit "&nbsp;"))
    else date_str in
  let header_data :=
    [ [ CellParagraph (lit "Exp.no : " ++ safe_text (get data "expNo" [])) table_left;
        CellParagraph (safe_text (get data "title" (lit "EXPERIMENT"))) table_center ];
      [ CellParagraph (lit "Date &nbsp;&nbsp;&nbsp;: " ++ date_str) table_left;
        CellStr [] ] ] in
  let total_available_width := (fst A4 - 2 * margin_x - (2 # 10) * inch)%Q in
  let col1_width := ((15 # 10) * inch)%Q in
  let col2_width := (total_available_width - col1_width)%Q in
  Table header_data [col1_width; col2_width].

(** [len(data.get('program', '').split('\n'))] *)
Definition prog_lines (data : record) : nat :=
  length (split LF (get data "program" [])).

(** The two paragraphs of the program section. *)
Definition program_elements (data : record) : list flowable :=
  [ Paragraph (lit "<b>PROGRAM :</b>") heading_style;
    Paragraph (safe_text (get data "program" [])) body_style ].

(** [out_clean]: the output text without its leading label. *)
Definition out_clean (data : record) : str :=
  let out_raw := strip (get data "output" []) in
  Re.sub_start Re.output_label out_raw.

Definition result_block (data : record) : list flowable :=
  [ Paragraph (lit "<b>RESULT :</b>") heading_style;
    Paragraph (nbsp5 ++ safe_text (get data "result" [])) body_style ].

(** The story, appended to in the order of the source. *)
Definition build_story (data : record) : list flowable :=
  let story := [] in
  let story := story ++ [header_table data] in
  let story := story ++ [Spacer 1 ((2 # 10) * inch)%Q] in
  let alg_html := Normalizer.alg_html (get data "algorithm" []) in
  let story :=
    if truthy data "aim" then
      let story := story ++ [Paragraph (lit "<b>AIM :</b>") heading_style] in
      story ++ [Paragraph (nbsp5 ++ safe_text (get data "aim" [])) body_style]
    else story in
  let story :=
    if negb (bool_decide (alg_html = [])) then
      let story := story ++ [Paragraph (lit "<b>ALGORITHM :</b>") heading_style] in
      story ++ [Paragraph alg_html body_style]
    else story in
  let story :=
    if truthy data "program" then
      if prog_lines data <? 15
      then story ++ [KeepTogether (program_elements data)]
      else fold_left (fun story el => story ++ [el]) (program_elements data) story
    else story in
  let story :=
    if truthy data "output" then
      let story := story ++ [Paragraph (lit "<b>OUTPUT :</b>") heading_style] in
      story ++ [Paragraph (safe_text (out_clean data)) turbo_c_style]
    else story in
  let story :=
    if truthy data "result" then
      let story := story ++ [PushToBottom (result_block data)] in
      story ++ [KeepTogether (result_block data)]
    else story in
  story.

(** The canvas operations of the page callback. *)
Inductive canvas_op : Type :=
  | saveState
  | setFont (name : string) (size : Q)
  | drawString (x y : Q) (text : str)
  | drawRightString (x y : Q) (text : str)
  | setStrokeColor (color : string)
  | setLineWidth (w : Q)
  | rect (x y w h : Q)
  | setFillAlpha (a : Q)
  | drawImage (path : string) (x y width height : Q) (mask : string)
  | restoreState.

(** [LOGO_PATH = os.path.join(BASE_DIR, 'download.png')] *)
Definition LOGO_PATH (BASE_DIR : string) : string :=
  (BASE_DIR ++ "/download.png")%string.

Section Decorations.
(** The directory of the program and the files that exist
    ([os.path.exists]). *)
Variable BASE_DIR : string.
Variable path_exists : string -> bool.

Local Open Scope Q_scope.

(** [draw_decorations]: the operations it performs on the canvas, in order. *)
Definition draw_decorations (data : record) : list canvas_op :=
  let ops := [saveState] in
  let ops := ops ++ [setFont "Helvetica-Bold" (105 # 10)] in
  let ops := ops ++ [drawString margin_x (snd A4 - (5 # 10) * inch)
                       (lit "Name : " ++ get data "name" [])] in
  let ops := ops ++ [drawRightString (fst A4 - margin_x) (snd A4 - (5 # 10) * inch)
                       (lit "Reg no : " ++ get data "regNo" [])] in
  let ops := ops ++ [setStrokeColor "black"] in
  let ops := ops ++ [setLineWidth 1] in
  let box_bottom_y := (7 # 10) * inch in
  let box_height := snd A4 - (65 # 100) * inch - box_bottom_y in
  let ops := ops ++ [rect margin_x box_bottom_y (fst A4 - 2 * margin_x) box_height] in
  let ops := ops ++ [setFont "Helvetica" 10] in
  let ops := ops ++ [drawRightString (fst A4 - margin_x) ((45 # 100) * inch)
                       (lit "22UCS202 - C Programming")] in
  let ops :=
    if path_exists (LOGO_PATH BASE_DIR) then
      let ops := ops ++ [setFillAlpha (1 # 10)] in
      let logo_size := 5 * inch in
      let center_x := (fst A4 - logo_size) / 2 in
      let center_y := (snd A4 - logo_size) / 2 in
      ops ++ [drawImage (LOGO_PATH BASE_DIR) center_x center_y logo_size logo_size "auto"]
    else ops in
  ops ++ [restoreState].

(** What [generate_pdf] hands to [doc.build]: the story and the two page
    callbacks. *)
Record build_request := mkBuild {
  story : list flowable;
  onFirstPage : list canvas_op;
  onLaterPages : list canvas_op;
}.

Definition build_args (data : record) : build_request :=
  mkBuild (build_story data) (draw_decorations data) (draw_decorations data).

(** [doc.build] followed by [buffer.getvalue()]: ReportLab lays the story
    out and runs the page callbacks; it gives the bytes of the document, or
    raises an exception, of which the message is kept. *)
Variable doc_build : build_request -> str + str.
(** [base64.b64encode(pdf_bytes).decode('utf-8')] *)
Variable b64encode : str -> str.

(** What the view answers: [jsonify({"success": True, "pdf_base64": ...})]
    or [jsonify({"error": str(e)})]. *)
Inductive answer : Type :=
  | PdfAnswer (pdf_base64 : str)
  | ErrorAnswer (msg : str).

(** [generate_pdf]: the [try] around the build, and its [except Exception]
    with status 500. *)
Definition generate_pdf (data : record) : answer * nat :=
  match doc_build (build_args data) with
  | inr pdf_bytes => (PdfAnswer (b64encode pdf_bytes), 200%nat)
  | inl msg => (ErrorAnswer msg, 500%nat)
  end.

End Decorations.

End Pdf.

(** ** The two endpoints that ask the model: [check_code], [extract_text] *)

Module Api.

Import Pdf.

(** The exceptions, by the handler that catches them: [except ValueError]
    (the missing key, and also [json.JSONDecodeError] and [binascii.Error],
    which are subclasses of [ValueError]) and [except Exception]. *)
Inductive exn : Type :=
  | ValueError (msg : str)
  | Exception (msg : str).

(** Errors are threaded through the calls of an endpoint. *)
#[export] Instance exn_ret : MRet (sum exn) := fun A a => inr a.
#[export] Instance exn_bind : MBind (sum exn) :=
  fun A B f m => match m with inl e => inl e | inr a => f a end.

(** What a view returns: [str(ve)], [jsonify({"error": msg})] or
    [jsonify(value)], and the status. *)
Inductive body (J : Type) : Type :=
  | Text (s : str)
  | JsonError (msg : str)
  | JsonValue (j : J).
Arguments Text {J}.
Arguments JsonError {J}.
Arguments JsonValue {J}.

Definition API_KEY_MISSING : str :=
  lit "Gemini API Key is missing! Please click 'Settings' at the top right to add it.".

(** [get_gemini_client]: the client is known by its key. *)
Definition get_gemini_client (headers : gmap string str) : exn + str :=
  let api_key := strip (get headers "X-API-Key" []) in
  if bool_decide (api_key = []) then inl (ValueError API_KEY_MISSING)
  else inr api_key.

(** [s[a:-b]] for [b > 0] *)
Definition slice (a b : nat) (s : str) : str := drop a (take (length s - b) s).

(** The reply of the model without its Markdown fence. *)
Definition unfence (text : str) : str :=
  let response_text := strip text in
  if startswith (lit "```json") response_text then slice 7 3 response_text
  else if startswith (lit "```") response_text then slice 3 3 response_text
  else response_text.

(** What is sent to the model. *)
Inductive part : Type :=
  | TextPart (text : str)
  | BytesPart (data : str) (mime_type : string).

(** [img_b64.split(',')[1]] when there is a comma. *)
Definition strip_data_url (img_b64 : str) : exn + str :=
  if contains (lit ",") img_b64 then
    match split (lit ",") img_b64 !! 1 with
    | Some payload => inr payload
    | None => inl (Exception (lit "list index out of range"))
    end
  else inr img_b64.

Section Endpoints.
(** The parsed JSON and [json.loads], which fails with a message. *)
Variable J : Type.
Variable json_loads : str -> str + J.
(** [base64.b64decode], which fails with a message. *)
Variable b64decode : str -> str + str.
(** [client.models.generate_content(model=..., contents=...)], [.text]. *)
Variable generate_content : str -> string -> list part -> exn + str.
(** The text of the two prompts; the first is an f-string around the
    program and the output. *)
Variables check_prompt_head check_prompt_mid check_prompt_tail : str.
Variable extract_prompt : str.

Definition response : Type := body J * nat.

(** The two [except] clauses. *)
Definition handle (e : exn) : response :=
  match e with
  | ValueError msg => (Text msg, 401)
  | Exception msg => (JsonError msg, 500)
  end.

Definition finish (r : exn + J) : response :=
  match r with
  | inl e => handle e
  | inr j => (JsonValue j, 200)
  end.

(** [json.loads(response_text)] after the fence is taken off. *)
Definition parse_reply (text : str) : exn + J :=
  match json_loads (unfence text) with
  | inl msg => inl (ValueError msg)
  | inr j => inr j
  end.

Definition check_code (headers : gmap string str) (data : record) : response :=
  finish (
    client ← get_gemini_client headers;
    let program := get data "program" [] in
    let output := get data "output" [] in
    let prompt := check_prompt_head ++ program ++ check_prompt_mid
                  ++ output ++ check_prompt_tail in
    text ← generate_content client "gemini-2.5-flash" [TextPart prompt];
    parse_reply text).

(** The loop over the images. *)
Fixpoint image_parts (images : list str) : exn + list part :=
  match images with
  | [] => mret []
  | img_b64 :: rest =>
      img_b64 ← strip_data_url img_b64;
      img_bytes ← match b64decode img_b64 with
                  | inl msg => inl (ValueError msg)
                  | inr b => inr b
                  end;
      parts ← image_parts rest;
      mret (BytesPart img_bytes "image/jpeg" :: parts)
  end.

(** [images] is [data.get('images', [])]. *)
Definition extract_text (headers : gmap string str) (images : list str) : response :=
  match get_gemini_client headers with
  | inl e => handle e
  | inr client =>
      if bool_decide (images = []) then (JsonError (lit "No images provided"), 400)
      else finish (
        parts ← image_parts images;
        text ← generate_content client "gemini-2.5-flash"
                 (TextPart extract_prompt :: parts);
        parse_reply text)
  end.

End Endpoints.

End Api.

(** ** The table of experiments *)

Module Db.

(** A row of [experiments]; a field is a text or NULL. *)
Record experiment : Type := mkExperiment {
  name : option str; regNo : option str; expNo : option str; date : option str;
  title : option str; aim : option str; algorithm : option str;
  program : option str; output : option str; result : option str;
  created_at : Z;
}.

(** The table, by [id], and the largest [id] given so far
    ([AUTOINCREMENT]). *)
Record db : Type := mkDb {
  rows : gmap Z experiment;
  seq : Z;
}.

(** [init_db]: [CREATE TABLE IF NOT EXISTS]. *)
Definition init_db (file : option db) : db :=
  match file with
  | Some d => d
  | None => mkDb ∅ 0
  end.

(** The body of a save: the [id], a number or null or missing, and the
    fields that are there, each a text or null. *)
Record save_request : Type := mkSave {
  id : option Z;
  fields : gmap string (option str);
}.

(** [KeyError] of [data[key]]; [OverflowError] of the binding of a Python
    integer that is not a signed 64-bit one. *)
Inductive error : Type :=
  | KeyError (key : string)
  | OverflowError.

Definition in_int64 (i : Z) : bool :=
  ((- 2 ^ 63 <=? i) && (i <? 2 ^ 63))%Z.

#[export] Instance error_ret : MRet (sum error) := fun A a => inr a.
#[export] Instance error_bind : MBind (sum error) :=
  fun A B f m => match m with inl e => inl e | inr a => f a end.

(** [data[key]] *)
Definition item (data : save_request) (key : string) : error + option str :=
  match fields data !! key with
  | Some v => inr v
  | None => inl (KeyError key)
  end.

(** The ten values that are bound, read in the order of the tuple. *)
Definition bound_fields (data : save_request) (t : Z) : error + experiment :=
  v1 ← item data "name"; v2 ← item data "regNo"; v3 ← item data "expNo";
  v4 ← item data "date"; v5 ← item data "title"; v6 ← item data "aim";
  v7 ← item data "algorithm"; v8 ← item data "program";
  v9 ← item data "output"; v10 ← item data "result";
  mret (mkExperiment v1 v2 v3 v4 v5 v6 v7 v8 v9 v10 t).

(** The truth value of [data.get('id')]. *)
Definition given_id (data : save_request) : option Z :=
  match id data with
  | Some i => if bool_decide (i = 0%Z) then None else Some i
  | None => None
  end.

(** [save_experiment] at time [now]: the answer and the table after it.  An
    exception leaves the table as it was: nothing is committed.  With an
    [id] the tuple is built first, then [execute] binds it, which fails for
    an [id] that is no signed 64-bit integer, then the row that has the [id],
    if there is one, gets the ten values and keeps its time of creation. *)
Definition save_experiment (now : Z) (data : save_request) (d : db)
  : (error + unit) * db :=
  match given_id data with
  | Some i =>
      let t := match rows d !! i with
               | Some old => created_at old
               | None => 0%Z
               end in
      match bound_fields data t with
      | inl e => (inl e, d)
      | inr new =>
          if in_int64 i then
            match rows d !! i with
            | Some _ => (inr tt, mkDb (<[i := new]> (rows d)) (seq d))
            | None => (inr tt, d)
            end
          else (inl OverflowError, d)
      end
  | None =>
      match bound_fields data now with
      | inl e => (inl e, d)
      | inr new =>
          let i := (seq d + 1)%Z in
          (inr tt, mkDb (<[i := new]> (rows d)) i)
      end
  end.

(** [delete_experiment]; the [id] of the route is taken to be one that a
    row can have. *)
Definition delete_experiment (i : Z) (d : db) : unit * db :=
  (tt, mkDb (delete i (rows d)) (seq d)).

End Db.

(** * Properties *)

(** ** The bottom-pin spacer *)

Module LayoutFacts.
Import Layout.
Local Open Scope Q_scope.

Section Wrap.
Context {F : Type} `{Flowable F}.

(** The total height the elements ask for at the given width and height. *)
Fixpoint total_height (els : list F) (availWidth availHeight : Q) : Q :=
  match els with
  | [] => 0
  | el :: els' =>
      snd (el_wrap el availWidth availHeight) + total_height els' availWidth availHeight
  end.

Lemma measure_from (els : list F) (aW aH h0 : Q) :
  fold_left (fun h el => h + snd (el_wrap el aW aH)) els h0
  == h0 + total_height els aW aH.
Proof.
  revert h0. induction els as [|el els IH]; intros h0; simpl.
  - lra.
  - rewrite IH. lra.
Qed.

Lemma measure_total (els : list F) (aW aH : Q) :
  measure els aW aH == total_height els aW aH.
Proof. unfold measure. rewrite measure_from. lra. Qed.

(** The safety margin: 0.05 inch is 3.6 points. *)
Definition safety_margin : Q := (5 # 100) * inch.

(** C1: the spacer measures the total height H of its elements, adds the
    0.05 inch margin, and reports a height above the available height A when
    A < H + margin, and exactly A - (H + margin) otherwise.  The reported
    width is the available width and the reported height is the one stored
    in the spacer. *)
Theorem wrap_negotiation (self : PushToBottomSpacer F) (A W : Q) :
  let H := total_height (elements_to_push self) W A in
  let self' := fst (wrap self W A) in
  let reported := snd (wrap self W A) in
  fst reported = W /\
  snd reported = height self' /\
  elements_to_push self' = elements_to_push self /\
  (A < H + safety_margin -> A < snd reported) /\
  (~ A < H + safety_margin -> snd reported == A - (H + safety_margin)).
Proof.
  cbv zeta. unfold wrap, safety_margin.
  pose proof (measure_total (elements_to_push self) W A) as Hm.
  destruct (Qlt_le_dec A (measure (elements_to_push self) W A + (5 # 100) * inch))
    as [Hlt | Hge]; simpl.
  - repeat split; try lra.
  - repeat split; try lra.
Qed.

End Wrap.

(** A block that always asks for a fixed height. *)
#[local] Instance fixed_height : Flowable Q := fun h w _ => (w, h).

(** Two blocks of 20 and 30 points: with 100 points left the spacer takes
    100 - 53.6 points; with 40 points left it asks for more than 40. *)
Lemma wrap_negotiation_fits :
  snd (snd (wrap (mkSpacer [20; 30] 0) 400 100)) == 464 # 10
  /\ 40 < snd (snd (wrap (mkSpacer [20; 30] 0) 400 40)).
Proof.
  split.
  - destruct (wrap_negotiation (mkSpacer [20; 30] 0) 100 400) as (_ & _ & _ & _ & Hfit).
    rewrite Hfit.
    + vm_compute. reflexivity.
    + vm_compute. intros Hc. discriminate Hc.
  - destruct (wrap_negotiation (mkSpacer [20; 30] 0) 40 400) as (_ & _ & _ & Hbreak & _).
    apply Hbreak. vm_compute. reflexivity.
Defined.

End LayoutFacts.

(** ** Facts about the string operations *)

Module PyStrFacts.

(** No white space at the start, or at the end. *)
Definition no_lead_space (s : str) : Prop :=
  forall c, head s = Some c -> is_space c = false.

Definition no_trail_space (s : str) : Prop :=
  forall c, last s = Some c -> is_space c = false.

Definition all_space (s : str) : Prop := Forall (fun c => is_space c = true) s.

Lemma lstrip_spec (s : str) :
  exists ws, s = ws ++ lstrip s /\ all_space ws /\ no_lead_space (lstrip s).
Proof.
  induction s as [|c s (ws & Hs & Hws & Hl)]; simpl.
  - exists []. repeat split; [constructor | intros c Hc; discriminate Hc].
  - destruct (is_space c) eqn:Hc.
    + exists (c :: ws). repeat split; [simpl; congruence | by constructor | done].
    + exists []. repeat split; [constructor |].
      intros c' Hc'. simpl in Hc'. congruence.
Qed.

Lemma lstrip_id (s : str) : no_lead_space s -> lstrip s = s.
Proof.
  destruct s as [|c s]; [done|]. intros Hl. simpl.
  by rewrite (Hl c eq_refl).
Qed.

Lemma lstrip_spaces (ws s : str) : all_space ws -> lstrip (ws ++ s) = lstrip s.
Proof.
  induction 1 as [|c ws Hc _ IH]; simpl; [done|]. by rewrite Hc.
Qed.

Lemma lstrip_idem (s : str) : lstrip (lstrip s) = lstrip s.
Proof. destruct (lstrip_spec s) as (ws & _ & _ & Hl). by apply lstrip_id. Qed.

Lemma rstrip_spec (s : str) :
  exists ws, s = rstrip s ++ ws /\ all_space ws /\ no_trail_space (rstrip s).
Proof.
  unfold rstrip. destruct (lstrip_spec (reverse s)) as (ws & Hs & Hws & Hl).
  exists (reverse ws). repeat split.
  - rewrite <- reverse_app, <- Hs. by rewrite reverse_involutive.
  - unfold all_space in *. rewrite Forall_forall in Hws.
    apply Forall_forall. intros c Hc. apply Hws. by apply elem_of_reverse.
  - intros c Hc. rewrite last_reverse in Hc. by apply Hl.
Qed.

Lemma rstrip_id (s : str) : no_trail_space s -> rstrip s = s.
Proof.
  intros Ht. unfold rstrip. rewrite lstrip_id; [apply reverse_involutive|].
  intros c Hc. rewrite head_reverse in Hc. by apply Ht.
Qed.

Lemma strip_spec (s : str) :
  exists ws1 ws2, s = ws1 ++ strip s ++ ws2 /\
    no_lead_space (strip s) /\ no_trail_space (strip s).
Proof.
  unfold strip.
  destruct (lstrip_spec s) as (ws1 & Hs & _ & Hl).
  destruct (rstrip_spec (lstrip s)) as (ws2 & Hr & _ & Ht).
  exists ws1, ws2. repeat split; [congruence | | done].
  intros c Hc. apply Hl. rewrite Hr.
  destruct (rstrip (lstrip s)); [discriminate Hc | exact Hc].
Qed.

Lemma strip_id (s : str) : no_lead_space s -> no_trail_space s -> strip s = s.
Proof.
  intros Hl Ht. unfold strip. rewrite (lstrip_id s Hl). by apply rstrip_id.
Qed.

Lemma strip_idem (s : str) : strip (strip s) = strip s.
Proof. destruct (strip_spec s) as (? & ? & _ & Hl & Ht). by apply strip_id. Qed.

Lemma elem_of_strip (c : ascii) (s : str) : c ∈ strip s -> c ∈ s.
Proof.
  destruct (strip_spec s) as (ws1 & ws2 & Hs & _). intros Hc.
  rewrite Hs. rewrite !elem_of_app. auto.
Qed.

(** [startswith] and [in] against their meaning on lists. *)
Lemma startswith_spec (p s : str) :
  startswith p s = true <-> exists post, s = p ++ post.
Proof.
  revert s. induction p as [|a p IH]; intros s; simpl.
  - split; [eauto | done].
  - destruct s as [|b s].
    + split; [done | intros [post Hp]; discriminate Hp].
    + rewrite andb_true_iff, bool_decide_eq_true, IH. split.
      * intros [-> [post ->]]. eauto.
      * intros [post Hp]. injection Hp as ? ?. subst. eauto.
Qed.

Lemma contains_spec (sub s : str) :
  contains sub s = true <-> exists pre post, s = pre ++ sub ++ post.
Proof.
  induction s as [|c s IH].
  - simpl. rewrite orb_false_r, startswith_spec. split.
    + intros [post Hp]. exists [], post. done.
    + intros (pre & post & Hp). destruct pre; [|discriminate Hp]. eauto.
  - change (contains sub (c :: s))
      with (startswith sub (c :: s) || contains sub s).
    rewrite orb_true_iff, IH, startswith_spec. split.
    + intros [[post Hp] | (pre & post & Hp)].
      * exists [], post. done.
      * exists (c :: pre), post. simpl. congruence.
    + intros (pre & post & Hp). destruct pre as [|c' pre].
      * left. eauto.
      * right. injection Hp as ? ?. subst. eauto.
Qed.

Lemma lower_app (a b : str) : lower (a ++ b) = lower a ++ lower b.
Proof. apply map_app. Qed.

(** [split]: a piece free of the first character of the separator is read
    through; a separator is passed over; joining and splitting cancel. *)
Section Split.
Variables (c : ascii) (sep' : str).
Let sep := c :: sep'.

Lemma startswith_self (p rest : str) : startswith p (p ++ rest) = true.
Proof. apply startswith_spec. eauto. Qed.

Lemma split_go_pass (p rest cur : str) :
  c ∉ p ->
  split_go sep (p ++ rest) 0 cur = split_go sep rest 0 (reverse p ++ cur).
Proof.
  revert cur. induction p as [|x p IH]; intros cur Hc; [done|].
  apply not_elem_of_cons in Hc as [Hx Hp].
  simpl. rewrite bool_decide_eq_false_2 by done. simpl.
  rewrite IH by done. by rewrite reverse_cons, <- app_assoc.
Qed.

Lemma split_go_skip (pre rest cur : str) :
  split_go sep (pre ++ rest) (length pre) cur = split_go sep rest 0 cur.
Proof.
  induction pre as [|x pre IH]; simpl; [|exact IH].
  destruct rest; reflexivity.
Qed.

Lemma split_go_last (p cur : str) :
  c ∉ p -> split_go sep p 0 cur = [reverse cur ++ p].
Proof.
  intros Hc. rewrite <- (app_nil_r p) at 1. rewrite split_go_pass by done.
  simpl. by rewrite reverse_app, reverse_involutive.
Qed.

Lemma split_go_sep (rest cur : str) :
  split_go sep (sep ++ rest) 0 cur = reverse cur :: split_go sep rest 0 [].
Proof.
  unfold sep. change ((c :: sep') ++ rest) with (c :: (sep' ++ rest)).
  cbn [split_go]. fold sep.
  change (c :: sep' ++ rest) with (sep ++ rest).
  rewrite startswith_self. f_equal.
  unfold sep. simpl. rewrite Nat.sub_0_r. apply split_go_skip.
Qed.

Lemma split_join (pieces : list str) :
  pieces <> [] ->
  Forall (fun p => c ∉ p) pieces ->
  split sep (join sep pieces) = pieces.
Proof.
  unfold split. intros Hne Hall.
  induction Hall as [|p pieces Hp Hall IH]; [done|].
  destruct pieces as [|q pieces].
  - simpl. by rewrite split_go_last.
  - change (join sep (p :: q :: pieces)) with (p ++ sep ++ join sep (q :: pieces)).
    rewrite split_go_pass by done. rewrite split_go_sep.
    rewrite app_nil_r, reverse_involutive. f_equal. by apply IH.
Qed.

End Split.

(** The pieces of a split by one character are free of it. *)
Lemma split_go_free (c : ascii) (s cur : str) :
  c ∉ cur -> Forall (fun p => c ∉ p) (split_go [c] s 0 cur).
Proof.
  revert cur. induction s as [|x s IH]; intros cur Hc; simpl.
  - constructor; [|constructor]. by rewrite elem_of_reverse.
  - case_bool_decide as Hx; simpl.
    + constructor; [by rewrite elem_of_reverse|]. apply IH. apply not_elem_of_nil.
    + apply IH. apply not_elem_of_cons. split; [congruence | done].
Qed.

Lemma split_free (c : ascii) (s : str) : Forall (fun p => c ∉ p) (split [c] s).
Proof. apply split_go_free, not_elem_of_nil. Qed.

(** The decimal numeral: digits, and at least one. *)
Lemma dec_digits (n : nat) : Forall (fun c => is_digit c = true) (dec n).
Proof.
  unfold dec, lit. induction (Nat.to_uint n); simpl; constructor; done.
Qed.

Lemma dec_nonempty (n : nat) : dec n <> [].
Proof.
  unfold dec, lit.
  assert (Nat.to_uint n <> Decimal.Nil) as Hn.
  { rewrite <- (DecimalNat.Unsigned.of_to n) at 1.
    rewrite DecimalNat.Unsigned.to_of. unfold Decimal.unorm.
    destruct (Decimal.nzhead (Nat.to_uint n)); discriminate. }
  destruct (Nat.to_uint n); [done | ..]; discriminate.
Qed.

End PyStrFacts.

(** ** Facts about the matcher *)

Module ReFacts.
Import PyStrFacts.

(** A fact about every character, by trying the 256 of them. *)
Ltac by_chars c :=
  destruct c as [[|] [|] [|] [|] [|] [|] [|] [|]]; vm_compute; try done.

(** The classes of the two patterns are pairwise disjoint, and no white
    space letter is an [o] under [re.IGNORECASE]. *)
Lemma classes_disjoint (c : ascii) :
  (is_space c && (is_digit c || Re.is_sep c || Re.ci "o" c))
  || (is_digit c && Re.is_sep c) = false.
Proof. by_chars c. Qed.

Lemma space_not_digit c : is_space c = true -> is_digit c = false.
Proof. pose proof (classes_disjoint c). destruct (is_space c), (is_digit c); done. Qed.

Lemma space_not_sep c : is_space c = true -> Re.is_sep c = false.
Proof.
  pose proof (classes_disjoint c).
  destruct (is_space c), (is_digit c), (Re.is_sep c); done.
Qed.

Lemma space_not_o c : is_space c = true -> Re.ci "o" c = false.
Proof.
  pose proof (classes_disjoint c).
  destruct (is_space c), (is_digit c), (Re.is_sep c), (Re.ci "o" c); done.
Qed.

Lemma digit_not_space c : is_digit c = true -> is_space c = false.
Proof. pose proof (classes_disjoint c). destruct (is_space c), (is_digit c); done. Qed.

Lemma digit_not_sep c : is_digit c = true -> Re.is_sep c = false.
Proof.
  pose proof (classes_disjoint c).
  destruct (is_space c), (is_digit c), (Re.is_sep c); done.
Qed.

Lemma sep_not_digit c : Re.is_sep c = true -> is_digit c = false.
Proof.
  pose proof (classes_disjoint c).
  destruct (is_space c), (is_digit c), (Re.is_sep c); done.
Qed.

Lemma sep_not_space c : Re.is_sep c = true -> is_space c = false.
Proof.
  pose proof (classes_disjoint c).
  destruct (is_space c), (is_digit c), (Re.is_sep c); done.
Qed.

Section Star.
Variable cls : ascii -> bool.

(** The first character, if any, is outside the class. *)
Definition stops (s : str) : Prop := forall c, head s = Some c -> cls c = false.

Definition all_in (s : str) : Prop := Forall (fun c => cls c = true) s.

(** Skip the characters of the class at the start. *)
Fixpoint skip (s : str) : str :=
  match s with
  | c :: s' => if cls c then skip s' else s
  | [] => []
  end.

Lemma star_stops k (s : str) : stops s -> Re.star cls k s = k s.
Proof.
  destruct s as [|a s]; [done|]. intros Hs. simpl. by rewrite (Hs a eq_refl).
Qed.

(** The repetition takes all it can when the rest of the pattern then
    matches. *)
Lemma star_greedy k (pre rest r : str) :
  all_in pre -> stops rest -> k rest = Some r ->
  Re.star cls k (pre ++ rest) = Some r.
Proof.
  intros Hpre Hrest Hk. induction Hpre as [|a pre Ha _ IH]; simpl.
  - by rewrite star_stops.
  - by rewrite Ha, IH.
Qed.

(** It fails when the rest of the pattern fails wherever the repetition
    may stop. *)
Lemma star_none k (pre rest : str) :
  all_in pre -> stops rest ->
  (forall suf, suf `suffix_of` pre -> k (suf ++ rest) = None) ->
  Re.star cls k (pre ++ rest) = None.
Proof.
  intros Hpre Hrest. induction Hpre as [|a pre Ha _ IH]; intros Hk; simpl.
  - rewrite star_stops by done. apply (Hk []). done.
  - rewrite Ha, IH.
    + apply (Hk (a :: pre)). done.
    + intros suf Hsuf. apply Hk. by apply suffix_cons_r.
Qed.

(** When the rest of the pattern always matches, the repetition leaves what
    follows the longest run of the class. *)
Lemma star_skip k f (s : str) :
  (forall t, k t = Some (f t)) -> Re.star cls k s = Some (f (skip s)).
Proof.
  intros Hk. induction s as [|a s IH]; simpl; [done|].
  destruct (cls a); [by rewrite IH | done].
Qed.

Lemma skip_stops (s : str) : stops (skip s).
Proof.
  induction s as [|a s IH]; simpl; [done|].
  destruct (cls a) eqn:Ha; [done|]. intros c Hc. simpl in Hc. congruence.
Qed.

Lemma skip_all_in (pre rest : str) :
  all_in pre -> stops rest -> skip (pre ++ rest) = rest.
Proof.
  intros Hpre Hrest. induction Hpre as [|a pre Ha _ IH]; simpl.
  - destruct rest as [|c rest]; [done|]. simpl. by rewrite (Hrest c eq_refl).
  - by rewrite Ha.
Qed.

End Star.

Lemma lstrip_skip (s : str) : lstrip s = skip is_space s.
Proof. induction s as [|c s IH]; simpl; [done|]. by rewrite IH. Qed.

(** A literal word under [re.IGNORECASE] matches the strings that are it
    in lower case. *)
Lemma match_word (w : str) (p : Re.pattern) (s : str) :
  Re.match_at (map (fun c => Re.One (Re.ci c)) w ++ p) s =
  if bool_decide (lower (take (length w) s) = lower w)
  then Re.match_at p (drop (length w) s) else None.
Proof.
  revert s. induction w as [|c w IH]; intros s.
  - simpl. destruct s; done.
  - destruct s as [|a s]; [done|].
    cbn [map app Re.match_at length take drop lower].
    rewrite IH. unfold Re.ci at 1. unfold lower.
    repeat case_bool_decide; simplify_eq/=; try done; congruence.
Qed.

Lemma suffix_cases cls (suf pre : str) :
  all_in cls pre -> suf `suffix_of` pre ->
  suf = [] \/ exists c suf', suf = c :: suf' /\ cls c = true.
Proof.
  intros Hpre [k ->]. destruct suf as [|c suf']; [by left | right].
  exists c, suf'. split; [done|].
  apply Forall_app in Hpre as [_ Hsuf]. by inversion Hsuf.
Qed.

Lemma stops_app cls cls' (pre rest : str) :
  all_in cls pre -> (forall c, cls c = true -> cls' c = false) ->
  stops cls' rest -> stops cls' (pre ++ rest).
Proof.
  intros Hpre Hd Hrest. destruct Hpre as [|a pre Ha _]; [done|].
  intros c Hc. simpl in Hc. injection Hc as <-. by apply Hd.
Qed.

Lemma stops_cons cls (c : ascii) (s : str) : cls c = false -> stops cls (c :: s).
Proof. intros Hc x Hx. simpl in Hx. congruence. Qed.

Lemma lower_length (a b : str) : lower a = lower b -> length a = length b.
Proof. intros E. apply (f_equal length) in E. unfold lower in E. by rewrite !length_map in E. Qed.

(** *** The step label *)

(** What follows the word [step] in the pattern. *)
Definition after_step : Re.pattern :=
  [Re.Star is_space; Re.Plus is_digit; Re.Star is_space; Re.One Re.is_sep;
   Re.Star is_space].

Lemma step_label_word (s : str) :
  Re.match_at Re.step_label s =
  if bool_decide (lower (take 4 s) = lit "step")
  then Re.match_at after_step (drop 4 s) else None.
Proof. unfold Re.step_label, Re.word. by rewrite match_word. Qed.

(** A label with its separator is matched, up to the text that follows. *)
Lemma after_step_match (ws1 ds ws2 : str) (sep : ascii) (ws3 rest : str) :
  all_in is_space ws1 -> all_in is_digit ds -> ds <> [] ->
  all_in is_space ws2 -> Re.is_sep sep = true ->
  all_in is_space ws3 -> stops is_space rest ->
  Re.match_at after_step (ws1 ++ ds ++ ws2 ++ sep :: ws3 ++ rest) = Some rest.
Proof.
  intros H1 Hd Hne H2 Hsep H3 Hrest.
  destruct Hd as [|d ds Hd Hds]; [done|].
  unfold after_step. cbn [Re.match_at].
  apply star_greedy; [done | by apply stops_cons, digit_not_space |].
  cbn [app]. rewrite Hd.
  apply star_greedy; [done | |].
  { eapply stops_app; [exact H2 | apply space_not_digit |].
    by apply stops_cons, sep_not_digit. }
  apply star_greedy; [done | by apply stops_cons, sep_not_space |].
  rewrite Hsep. apply star_greedy; done.
Qed.

(** Without a separator the pattern does not match. *)
Lemma after_step_no_sep (ws1 ds ws2 rest : str) :
  all_in is_space ws1 -> all_in is_digit ds -> ds <> [] ->
  all_in is_space ws2 ->
  stops is_space rest -> stops is_digit rest -> stops Re.is_sep rest ->
  Re.match_at after_step (ws1 ++ ds ++ ws2 ++ rest) = None.
Proof.
  intros H1 Hd Hne H2 Hrs Hrd Hrp.
  destruct Hd as [|d ds Hd Hds]; [done|].
  unfold after_step. cbn [Re.match_at].
  apply star_none; [done | by apply stops_cons, digit_not_space |].
  intros suf Hsuf.
  destruct (suffix_cases _ _ _ H1 Hsuf) as [-> | (c & suf' & -> & Hc)].
  2:{ cbn [app]. by rewrite (space_not_digit c Hc). }
  cbn [app]. rewrite Hd.
  apply star_none; [done | |].
  { eapply stops_app; [exact H2 | apply space_not_digit | done]. }
  clear Hsuf. intros suf Hsuf.
  destruct (suffix_cases _ _ _ Hds Hsuf) as [-> | (c & suf' & -> & Hc)].
  2:{ cbn [app]. rewrite star_stops by (by apply stops_cons, digit_not_space).
      by rewrite (digit_not_sep c Hc). }
  cbn [app].
  apply star_none; [done | done |].
  clear Hsuf. intros suf Hsuf.
  destruct (suffix_cases _ _ _ H2 Hsuf) as [-> | (c & suf' & -> & Hc)].
  2:{ cbn [app]. by rewrite (space_not_sep c Hc). }
  cbn [app]. destruct rest as [|c rest]; [done|].
  by rewrite (Hrp c eq_refl).
Qed.

(** *** The output label *)

(** The pattern after its leading [\s*]. *)
Definition output_word : Re.pattern :=
  Re.word "output" ++ [Re.Star is_space; Re.Star Re.is_sep; Re.Star is_space].

(** What is left once the word [output] is read: white space, separators
    and white space again are dropped. *)
Definition after_output (s : str) : str :=
  lstrip (skip Re.is_sep (lstrip s)).

Lemma output_word_match (s : str) :
  Re.match_at output_word s =
  if bool_decide (lower (take 6 s) = lit "output")
  then Some (after_output (drop 6 s)) else None.
Proof.
  unfold output_word, Re.word. rewrite match_word.
  change (length (lit "output")) with 6.
  change (lower (lit "output")) with (lit "output").
  case_bool_decide; [|done].
  cbn [Re.match_at]. unfold after_output. rewrite !lstrip_skip.
  rewrite (star_skip is_space _ (fun t => skip is_space (skip Re.is_sep t))); [done|].
  intros t. rewrite (star_skip Re.is_sep _ (fun t => skip is_space t)); [done|].
  intros t'. by rewrite (star_skip is_space _ (fun t => t)).
Qed.

(** [re.sub] with the output pattern: the label is looked for after the
    leading white space; it is the six letters of [output] in any case, and
    nothing is asked of the character that follows them. *)
Lemma output_label_sub (s : str) :
  Re.sub_start Re.output_label s =
  if bool_decide (lower (take 6 (lstrip s)) = lit "output")
  then after_output (drop 6 (lstrip s)) else s.
Proof.
  unfold Re.sub_start, Re.output_label.
  change ([Re.Star is_space] ++ Re.word "output" ++ _)
    with (Re.Star is_space :: output_word).
  cbn [Re.match_at].
  destruct (lstrip_spec s) as (ws & Hs & Hws & Hl).
  rewrite Hs at 1.
  pose proof (output_word_match (lstrip s)) as Hm.
  case_bool_decide as Hw.
  - by rewrite (star_greedy _ _ _ _ _ Hws Hl Hm).
  - rewrite star_none; [done | done | done |].
    intros suf Hsuf.
    destruct (suffix_cases _ _ _ Hws Hsuf) as [-> | (c & suf' & -> & Hc)]; [done|].
    unfold output_word. cbn [Re.word lit list_ascii_of_string map app Re.match_at].
    by rewrite (space_not_o c Hc).
Qed.

End ReFacts.

(** ** The algorithm processor *)

Module NormalizerFacts.
Import PyStrFacts ReFacts Normalizer.

Definition START : str := lit "Step 1: Start the program".
Definition STOP (n : nat) : str := lit "Step " ++ dec n ++ lit ": Stop the program".
Definition BR : str := lit "<br/>".

(** An intermediate step without its line break. *)
Definition step_text (i : nat) (t : str) : str :=
  lit "Step " ++ dec (i + 2) ++ lit ": " ++ escape t.

(** The line feed as a character. *)
Definition lf : ascii := "010"%char.

(** *** What the matcher and [line_clean] leave *)

Lemma star_suffix cls k (s r : str) :
  (forall t r, k t = Some r -> r `suffix_of` t) ->
  Re.star cls k s = Some r -> r `suffix_of` s.
Proof.
  intros Hk. induction s as [|a s IH]; simpl.
  - apply Hk.
  - destruct (cls a); [|apply Hk].
    destruct (Re.star cls k s) as [r'|] eqn:E.
    + intros [= <-]. by apply suffix_cons_r, IH.
    + apply Hk.
Qed.

Lemma match_at_suffix (p : Re.pattern) (s r : str) :
  Re.match_at p s = Some r -> r `suffix_of` s.
Proof.
  revert s r. induction p as [|[cls|cls|cls] p IH]; intros s r; cbn [Re.match_at].
  - by intros [= <-].
  - destruct s as [|a s]; [done|]. destruct (cls a); [|done].
    intros Hm. by apply suffix_cons_r, IH.
  - by apply star_suffix.
  - destruct s as [|a s]; [done|]. destruct (cls a); [|done].
    intros Hm. by apply suffix_cons_r, (star_suffix cls (Re.match_at p)).
Qed.

Lemma sub_start_suffix (p : Re.pattern) (s : str) : Re.sub_start p s `suffix_of` s.
Proof.
  unfold Re.sub_start. destruct (Re.match_at p s) eqn:E; [|done].
  by apply match_at_suffix in E.
Qed.

Lemma elem_of_line_clean (c : ascii) (line : str) : c ∈ line_clean line -> c ∈ line.
Proof.
  unfold line_clean. intros Hc. apply elem_of_strip in Hc.
  destruct (sub_start_suffix Re.step_label line) as [k Hk].
  rewrite Hk. apply elem_of_app. by right.
Qed.

Lemma line_clean_stripped (line : str) :
  no_lead_space (line_clean line) /\ no_trail_space (line_clean line).
Proof.
  unfold line_clean.
  destruct (strip_spec (Re.sub_start Re.step_label line)) as (? & ? & _ & ? & ?).
  done.
Qed.

(** *** The loop over the lines *)

(** A line yields a step when it is not blank, its cleaned text is not
    empty, and it is not a start or stop line. *)
Definition usable (line : str) : bool :=
  let clean := line_clean (strip line) in
  negb (bool_decide (strip line = []))
  && negb (is_boilerplate clean) && negb (bool_decide (clean = [])).

(** One iteration appends the cleaned text of a usable line that is new. *)
Lemma process_line_eq (P : list str) (line : str) :
  process_line P line =
  if usable line && negb (bool_decide (line_clean (strip line) ∈ P))
  then P ++ [line_clean (strip line)] else P.
Proof.
  unfold process_line, usable.
  destruct (bool_decide (strip line = [])); [done|].
  destruct (is_boilerplate _); [done|]. simpl.
  by destruct (bool_decide (line_clean (strip line) = [])).
Qed.

(** What holds of every processed line. *)
Record clean_step (t : str) : Prop := {
  step_nonempty : t <> [];
  step_lead : no_lead_space t;
  step_trail : no_trail_space t;
  step_not_boilerplate : is_boilerplate t = false;
}.

Lemma usable_clean_step (line : str) :
  usable line = true -> clean_step (line_clean (strip line)).
Proof.
  unfold usable. rewrite !andb_true_iff, !negb_true_iff, !bool_decide_eq_false.
  intros [[_ Hb] Hne]. destruct (line_clean_stripped (strip line)). by split.
Qed.

Lemma process_line_inv (P : list str) (line : str) :
  NoDup P -> Forall clean_step P ->
  NoDup (process_line P line) /\ Forall clean_step (process_line P line).
Proof.
  intros Hnd Hall. rewrite process_line_eq.
  destruct (usable line) eqn:Hu; [|done]. simpl.
  case_bool_decide as Hin; [done|]. simpl. split.
  - apply NoDup_app. repeat split; [done | | apply NoDup_singleton].
    intros x Hx Hx'. apply list_elem_of_singleton in Hx'. by subst.
  - apply Forall_app. split; [done|]. constructor; [|done].
    by apply usable_clean_step.
Qed.

Lemma fold_process_inv (lines : list str) (P : list str) :
  NoDup P -> Forall clean_step P ->
  NoDup (fold_left process_line lines P)
  /\ Forall clean_step (fold_left process_line lines P).
Proof.
  revert P. induction lines as [|line lines IH]; intros P Hnd Hall; [done|].
  simpl. destruct (process_line_inv P line Hnd Hall). by apply IH.
Qed.

Lemma processed_lines_inv (alg_raw : str) :
  NoDup (processed_lines alg_raw) /\ Forall clean_step (processed_lines alg_raw).
Proof. apply fold_process_inv; [apply NoDup_nil_2 | constructor]. Qed.

(** Lines come from a split at the line feeds, so no step holds one. *)
Lemma fold_process_lf (lines : list str) (P : list str) :
  Forall (fun l => lf ∉ l) lines -> Forall (fun t => lf ∉ t) P ->
  Forall (fun t => lf ∉ t) (fold_left process_line lines P).
Proof.
  revert P. induction lines as [|line lines IH]; intros P Hl HP; [done|].
  inversion Hl as [|? ? Hline Hlines]; subst. simpl. apply IH; [done|].
  rewrite process_line_eq. destruct (_ && _); [|done].
  apply Forall_app. split; [done|]. constructor; [|done].
  intros Hc. apply elem_of_line_clean, elem_of_strip in Hc. done.
Qed.

Lemma processed_lines_lf (alg_raw : str) :
  Forall (fun t => lf ∉ t) (processed_lines alg_raw).
Proof. apply fold_process_lf; [apply split_free | constructor]. Qed.

Lemma fold_process_unusable (lines : list str) :
  Forall (fun l => usable l = false) lines -> fold_left process_line lines [] = [].
Proof.
  induction 1 as [|line lines Hu _ IH]; [done|].
  simpl. rewrite process_line_eq, Hu. exact IH.
Qed.

(** *** The text that is built *)

Lemma fold_imap_concat_from {A} (f : nat -> A -> str) (g : nat -> nat)
    (l : list A) (acc : str) :
  fold_left (fun acc il => acc ++ f (fst il) (snd il))
            (imap (fun i x => (g i, x)) l) acc
  = acc ++ concat (imap (fun i x => f (g i) x) l).
Proof.
  revert g acc. induction l as [|x l IH]; intros g acc; simpl.
  - by rewrite app_nil_r.
  - rewrite (app_assoc acc). apply (IH (g ∘ S)).
Qed.

Lemma fold_imap_concat {A} (f : nat -> A -> str) (l : list A) (acc : str) :
  fold_left (fun acc il => acc ++ f (fst il) (snd il)) (imap pair l) acc
  = acc ++ concat (imap f l).
Proof. apply (fold_imap_concat_from f id). Qed.

Lemma join_snoc (sep : str) (l : list str) (y : str) :
  join sep (l ++ [y]) = concat (map (fun p => p ++ sep) l) ++ y.
Proof.
  induction l as [|x l IH]; [done|].
  change (join sep ((x :: l) ++ [y])) with (join sep (x :: (l ++ [y]))).
  destruct (l ++ [y]) as [|z l'] eqn:E; [by destruct l|].
  change (join sep (x :: z :: l')) with (x ++ sep ++ join sep (z :: l')).
  rewrite IH. simpl. by rewrite <- !app_assoc.
Qed.

(** The steps of the text, in order. *)
Definition step_lines (P : list str) : list str :=
  [START] ++ imap step_text P ++ [STOP (length P + 2)].

Lemma render_join (P : list str) : render P = join BR (step_lines P).
Proof.
  unfold render, step_lines. rewrite fold_imap_concat.
  change ([START] ++ imap step_text P ++ [STOP (length P + 2)])
    with ((START :: imap step_text P) ++ [STOP (length P + 2)]).
  rewrite join_snoc. cbn [map concat].
  change (lit "Step 1: Start the program<br/>") with (START ++ BR).
  rewrite <- !app_assoc. do 2 f_equal. unfold STOP. f_equal.
  rewrite fmap_imap. f_equal. apply imap_ext. intros i t _. simpl.
  unfold step_html, step_text, BR. by rewrite <- !app_assoc.
Qed.

(** *** Escaped text *)

Definition is_entity_char (x : ascii) : bool :=
  contains [x] (lit "&amp;lt;gt;quot;#x27;").

Definition is_special (c : ascii) : bool :=
  negb (bool_decide (escape_char c = [c])).

Lemma escape_char_chars (c : ascii) :
  forallb (fun y => is_entity_char y || (bool_decide (y = c) && negb (is_special c)))
          (escape_char c) = true.
Proof. by_chars c. Qed.

(** A character of an escaped text is one of an entity, or a character of
    the text that is not escaped. *)
Lemma elem_of_escape (x : ascii) (s : str) :
  x ∈ escape s -> is_entity_char x = true \/ (x ∈ s /\ is_special x = false).
Proof.
  unfold escape. induction s as [|c s IH]; simpl; [by intros ?%elem_of_nil|].
  rewrite elem_of_app. intros [Hx | Hx].
  - pose proof (escape_char_chars c) as Hc. rewrite forallb_forall in Hc.
    apply list_elem_of_In, Hc in Hx.
    apply orb_true_iff in Hx as [Hx | Hx]; [by left | right].
    apply andb_true_iff in Hx as [->%bool_decide_eq_true Hsp].
    split; [left | by apply negb_true_iff].
  - destruct (IH Hx) as [? | [? ?]]; [by left | right]. split; [by right | done].
Qed.

Lemma not_elem_of_bool (x : ascii) (l : str) :
  forallb (fun y => negb (bool_decide (y = x))) l = true -> x ∉ l.
Proof.
  rewrite forallb_forall. intros Hl Hx. apply list_elem_of_In, Hl in Hx.
  by rewrite bool_decide_eq_true_2 in Hx.
Qed.

Lemma not_elem_of_digits (x : ascii) (n : nat) : is_digit x = false -> x ∉ dec n.
Proof.
  intros Hx Hin. pose proof (dec_digits n) as Hd.
  rewrite Forall_forall in Hd. specialize (Hd x Hin). congruence.
Qed.

(** The character [<] is in no step of the text. *)
Lemma lt_not_in_escape (s : str) : "<"%char ∉ escape s.
Proof. intros [H | [_ H]]%elem_of_escape; discriminate H. Qed.

Lemma lt_not_in_step_text (i : nat) (t : str) : "<"%char ∉ step_text i t.
Proof.
  unfold step_text. rewrite !not_elem_of_app. repeat split.
  - by apply not_elem_of_bool.
  - by apply not_elem_of_digits.
  - by apply not_elem_of_bool.
  - apply lt_not_in_escape.
Qed.

Lemma lt_not_in_step_lines (P : list str) :
  Forall (fun p => "<"%char ∉ p) (step_lines P).
Proof.
  unfold step_lines. apply Forall_app. split; [|apply Forall_app; split].
  - constructor; [by apply not_elem_of_bool | constructor].
  - apply Forall_forall. intros p (i & t & -> & _)%elem_of_lookup_imap.
    apply lt_not_in_step_text.
  - constructor; [|constructor]. unfold STOP. rewrite !not_elem_of_app.
    repeat split; [by apply not_elem_of_bool | by apply not_elem_of_digits
                  | by apply not_elem_of_bool].
Qed.

(** Splitting the text at the line breaks gives back its steps. *)
Lemma split_render (P : list str) : split BR (render P) = step_lines P.
Proof.
  rewrite render_join. apply (split_join "<"%char (lit "br/>")).
  - done.
  - apply lt_not_in_step_lines.
Qed.

(** A step that passed the start/stop test holds neither sentence, in any
    mix of cases. *)
Definition no_start_stop (t : str) : Prop :=
  forall pre mid post, t = pre ++ mid ++ post ->
    lower mid <> lit "start the program" /\ lower mid <> lit "stop the program".

Lemma not_boilerplate_no_start_stop (t : str) :
  is_boilerplate t = false -> no_start_stop t.
Proof.
  unfold is_boilerplate. intros Hb pre mid post ->.
  apply orb_false_iff in Hb as [Hstart Hstop].
  rewrite !lower_app in Hstart, Hstop.
  split; intros Hmid; rewrite Hmid in *.
  - apply not_true_iff_false in Hstart. apply Hstart, contains_spec. eauto.
  - apply not_true_iff_false in Hstop. apply Hstop, contains_spec. eauto.
Qed.

(** C2: the text starts with "Step 1: Start the program" and ends with
    "Step N: Stop the program", N being the number of intermediate steps
    plus 2; cut at its line breaks it is the start line, the intermediate
    steps numbered 2, 3, ... in order, and the stop line; no two intermediate
    steps have the same cleaned text, and none holds "start the program" or
    "stop the program" in any mix of cases. *)
Theorem normalizer_shape (alg_raw : str) :
  let steps := processed_lines alg_raw in
  let N := length steps + 2 in
  let out := alg_html alg_raw in
  lit "Step 1: Start the program" `prefix_of` out /\
  (lit "Step " ++ dec N ++ lit ": Stop the program") `suffix_of` out /\
  2 <= N /\
  split (lit "<br/>") out
  = [lit "Step 1: Start the program"]
    ++ imap (fun i t => lit "Step " ++ dec (i + 2) ++ lit ": " ++ escape t) steps
    ++ [lit "Step " ++ dec N ++ lit ": Stop the program"] /\
  NoDup steps /\
  Forall no_start_stop steps.
Proof.
  cbv zeta. destruct (processed_lines_inv alg_raw) as [Hnd Hall].
  unfold alg_html. repeat split.
  - unfold render. rewrite fold_imap_concat.
    change (lit "Step 1: Start the program<br/>")
      with (lit "Step 1: Start the program" ++ BR).
    rewrite <- !app_assoc. by eexists.
  - unfold render. by eexists.
  - lia.
  - apply split_render.
  - done.
  - eapply Forall_impl; [exact Hall|]. intros t Ht.
    apply not_boilerplate_no_start_stop, Ht.
Qed.

(** C10: a line whose cleaned text is empty leaves the list of steps as it
    is, and every step of the list has a non-empty cleaned text. *)
Theorem empty_clean_no_step :
  (forall (P : list str) (line : str),
     line_clean (strip line) = [] -> process_line P line = P) /\
  (forall alg_raw : str, Forall (fun t => t <> []) (processed_lines alg_raw)).
Proof.
  split.
  - intros P line Hc. rewrite process_line_eq. unfold usable. rewrite Hc.
    by rewrite andb_false_r.
  - intros alg_raw. destruct (processed_lines_inv alg_raw) as [_ Hall].
    eapply Forall_impl; [exact Hall|]. intros t Ht. apply Ht.
Qed.

(** The line "Step 3:" adds nothing to a list that holds one step. *)
Lemma empty_clean_no_step_label_only :
  process_line [lit "Read a"] (lit "Step 3:") = [lit "Read a"].
Proof.
  apply (proj1 empty_clean_no_step [lit "Read a"] (lit "Step 3:")).
  vm_compute. reflexivity.
Defined.

(** The label of "Step 2 Read a and b", which has no separator, stays. *)
Lemma step_label_without_separator_stays :
  line_clean (lit "Step 2 Read a and b") = lit "Step 2 Read a and b" /\
  line_clean (lit "Step 2 Read a and b") <> lit "Read a and b" /\
  alg_html (lit "Step 2 Read a and b")
  = lit "Step 1: Start the program<br/>Step 2: Step 2 Read a and b<br/>Step 3: Stop the program".
Proof. vm_compute. repeat split. discriminate. Qed.

(** A labelled line with a separator, and one without. *)
Lemma line_clean_sep (w ws1 ds ws2 : str) (sep : ascii) (ws3 rest : str) :
  lower w = lit "step" ->
  all_in is_space ws1 -> all_in is_digit ds -> ds <> [] -> all_in is_space ws2 ->
  Re.is_sep sep = true -> all_in is_space ws3 -> no_lead_space rest ->
  line_clean (w ++ ws1 ++ ds ++ ws2 ++ sep :: ws3 ++ rest) = strip rest.
Proof.
  intros Hw H1 Hd Hne H2 Hsep H3 Hrest.
  pose proof (lower_length w (lit "step") Hw) as Hlen. simpl in Hlen.
  unfold line_clean, Re.sub_start. rewrite step_label_word, <- Hlen.
  rewrite take_app_length, drop_app_length.
  rewrite bool_decide_eq_true_2 by done.
  by rewrite after_step_match.
Qed.

Lemma line_clean_no_sep (w ws1 ds ws2 rest : str) :
  lower w = lit "step" ->
  all_in is_space ws1 -> all_in is_digit ds -> ds <> [] -> all_in is_space ws2 ->
  stops is_space rest -> stops is_digit rest -> stops Re.is_sep rest ->
  line_clean (w ++ ws1 ++ ds ++ ws2 ++ rest) = strip (w ++ ws1 ++ ds ++ ws2 ++ rest).
Proof.
  intros Hw H1 Hd Hne H2 Hrs Hrd Hrp.
  pose proof (lower_length w (lit "step") Hw) as Hlen. simpl in Hlen.
  unfold line_clean, Re.sub_start. rewrite step_label_word, <- Hlen.
  rewrite take_app_length, drop_app_length.
  rewrite bool_decide_eq_true_2 by done.
  by rewrite after_step_no_sep.
Qed.

(** C4, as the code has it: a leading "Step <number>" label is removed, in
    any mix of cases, when one separator (':', '-' or '.') follows the
    number; without a separator the label stays. *)
Theorem step_label_needs_separator (w ws1 ds ws2 rest : str) :
  lower w = lit "step" ->
  Forall (fun c => is_space c = true) ws1 ->
  Forall (fun c => is_digit c = true) ds -> ds <> [] ->
  Forall (fun c => is_space c = true) ws2 ->
  (forall (sep : ascii) (ws3 : str),
     Re.is_sep sep = true -> Forall (fun c => is_space c = true) ws3 ->
     no_lead_space rest ->
     line_clean (w ++ ws1 ++ ds ++ ws2 ++ sep :: ws3 ++ rest) = strip rest) /\
  (stops is_space rest -> stops is_digit rest -> stops Re.is_sep rest ->
   line_clean (w ++ ws1 ++ ds ++ ws2 ++ rest) = strip (w ++ ws1 ++ ds ++ ws2 ++ rest)).
Proof.
  intros Hw H1 Hd Hne H2. split.
  - intros sep ws3 Hsep H3 Hrest. by apply line_clean_sep.
  - intros Hrs Hrd Hrp. by apply line_clean_no_sep.
Qed.

(** "Step 2: Read a and b" loses its label, "Step 2 Read a and b" keeps it. *)
Lemma step_label_needs_separator_read :
  line_clean (lit "Step 2: Read a and b") = lit "Read a and b" /\
  line_clean (lit "Step 2 Read a and b") = lit "Step 2 Read a and b".
Proof.
  assert (Forall (fun c => is_space c = true) (lit " ")) as Hsp
    by (repeat constructor).
  destruct (step_label_needs_separator (lit "Step") (lit " ") (lit "2") []
              (lit "Read a and b")) as [Hsep _];
    [reflexivity | exact Hsp | repeat constructor | discriminate | constructor |].
  destruct (step_label_needs_separator (lit "Step") (lit " ") (lit "2") (lit " ")
              (lit "Read a and b")) as [_ Hnone];
    [reflexivity | exact Hsp | repeat constructor | discriminate | exact Hsp |].
  split.
  - apply (Hsep ":"%char (lit " ")); [reflexivity | exact Hsp |].
    intros c [= <-]. reflexivity.
  - apply Hnone; intros c [= <-]; reflexivity.
Defined.

(** *** Normalizing the text again *)

(** Facts about [html.escape] on one character. *)
Lemma escape_char_facts (c : ascii) :
  negb (bool_decide (escape_char c = []))
  && (is_space c || forallb (fun x => negb (is_space x)) (escape_char c))
  && bool_decide (lower (escape_char c) = escape_char (lower_char c))
  && (negb (is_special c)
      || (bool_decide (head (escape_char c) = Some "&"%char)
          && forallb is_entity_char (escape_char c)
          && contains [c] [ "&"; "<"; ">"; "034"; "'" ]%char)) = true.
Proof. by_chars c. Qed.

Lemma escape_char_nonempty (c : ascii) : escape_char c <> [].
Proof.
  pose proof (escape_char_facts c) as H.
  rewrite !andb_true_iff, negb_true_iff, bool_decide_eq_false in H. tauto.
Qed.

Lemma escape_char_no_space (c x : ascii) :
  is_space c = false -> x ∈ escape_char c -> is_space x = false.
Proof.
  intros Hc Hx. pose proof (escape_char_facts c) as H.
  rewrite !andb_true_iff, Hc in H. destruct H as [[[_ H] _] _]. simpl in H.
  rewrite forallb_forall in H. apply list_elem_of_In, H in Hx.
  by apply negb_true_iff.
Qed.

Lemma lower_escape_char (c : ascii) :
  lower (escape_char c) = escape_char (lower_char c).
Proof.
  pose proof (escape_char_facts c) as H.
  rewrite !andb_true_iff, bool_decide_eq_true in H. tauto.
Qed.

Lemma escape_char_special (c : ascii) :
  is_special c = true ->
  head (escape_char c) = Some "&"%char
  /\ Forall (fun x => is_entity_char x = true) (escape_char c)
  /\ c ∈ [ "&"; "<"; ">"; "034"; "'" ]%char.
Proof.
  intros Hc. pose proof (escape_char_facts c) as H.
  rewrite !andb_true_iff, Hc in H. destruct H as [_ H]. simpl in H.
  rewrite !andb_true_iff, bool_decide_eq_true, forallb_forall in H.
  destruct H as [[Hh He] Hin]. repeat split; [done | |].
  - apply Forall_forall. intros x Hx. by apply He, list_elem_of_In.
  - rewrite !orb_true_iff, !andb_true_iff, !bool_decide_eq_true in Hin.
    rewrite !elem_of_cons. intuition discriminate.
Qed.

Lemma escape_char_plain (c : ascii) : is_special c = false -> escape_char c = [c].
Proof. unfold is_special. by rewrite negb_false_iff, bool_decide_eq_true. Qed.

Lemma escape_cons (c : ascii) (s : str) : escape (c :: s) = escape_char c ++ escape s.
Proof. done. Qed.

Lemma escape_app (a b : str) : escape (a ++ b) = escape a ++ escape b.
Proof. unfold escape. apply flat_map_app. Qed.

Lemma escape_nonempty (s : str) : s <> [] -> escape s <> [].
Proof.
  destruct s as [|c s]; [done|]. intros _. rewrite escape_cons.
  pose proof (escape_char_nonempty c). by destruct (escape_char c).
Qed.

Lemma escape_lead (s : str) : no_lead_space s -> no_lead_space (escape s).
Proof.
  destruct s as [|c s]; [done|]. intros Hs x Hx. rewrite escape_cons in Hx.
  apply (escape_char_no_space c x (Hs c eq_refl)).
  pose proof (escape_char_nonempty c).
  destruct (escape_char c) as [|y e]; [done|]. injection Hx as ->. by left.
Qed.

Lemma escape_trail (s : str) : no_trail_space s -> no_trail_space (escape s).
Proof.
  intros Hs x Hx.
  destruct (last s) as [c|] eqn:Hl.
  - pose proof Hl as Hc. apply last_Some in Hl as [s' ->].
    rewrite escape_app in Hx. unfold escape at 2 in Hx. simpl in Hx.
    rewrite app_nil_r in Hx.
    apply (escape_char_no_space c x (Hs c Hc)).
    pose proof (escape_char_nonempty c) as Hne.
    rewrite last_app in Hx. destruct (last (escape_char c)) eqn:E.
    + injection Hx as ->. by apply last_Some_elem_of.
    + by apply last_None in E.
  - apply last_None in Hl. by subst.
Qed.

Lemma lower_escape (s : str) : lower (escape s) = escape (lower s).
Proof.
  induction s as [|c s IH]; [done|].
  rewrite escape_cons, lower_app, IH, lower_escape_char. done.
Qed.

(** A text without escaped characters that starts in an escaped text starts
    in the text itself. *)
Lemma startswith_escape (sub m : str) :
  Forall (fun y => is_special y = false) sub ->
  startswith sub (escape m) = true -> startswith sub m = true.
Proof.
  intros Hsub. revert m. induction Hsub as [|a sub Ha _ IH]; intros m; [done|].
  destruct m as [|c m]; [done|]. rewrite escape_cons.
  destruct (is_special c) eqn:Hc.
  - destruct (escape_char_special c Hc) as (Hh & _ & _).
    destruct (escape_char c) as [|y e]; [done|]. injection Hh as ->.
    simpl. case_bool_decide as E; [|done]. subst. discriminate Ha.
  - rewrite (escape_char_plain c Hc). simpl.
    rewrite !andb_true_iff. intros [? ?]. split; [done | by apply IH].
Qed.

Lemma contains_skip (a : ascii) (sub e rest : str) :
  a ∉ e -> contains (a :: sub) (e ++ rest) = contains (a :: sub) rest.
Proof.
  induction e as [|y e IH]; [done|]. intros [Hy He]%not_elem_of_cons.
  change (contains (a :: sub) ((y :: e) ++ rest))
    with (startswith (a :: sub) (y :: e ++ rest) || contains (a :: sub) (e ++ rest)).
  rewrite IH by done. simpl. by rewrite bool_decide_eq_false_2.
Qed.

(** A text that holds no escaped character and starts with none of an
    entity is found in an escaped text only where it is in the text. *)
Lemma contains_escape (a : ascii) (sub m : str) :
  is_entity_char a = false ->
  Forall (fun y => is_special y = false) (a :: sub) ->
  contains (a :: sub) (escape m) = true -> contains (a :: sub) m = true.
Proof.
  intros Ha Hsub. induction m as [|c m IH]; [done|].
  rewrite escape_cons.
  change (contains (a :: sub) (c :: m))
    with (startswith (a :: sub) (c :: m) || contains (a :: sub) m).
  destruct (is_special c) eqn:Hc.
  - destruct (escape_char_special c Hc) as (_ & He & _).
    rewrite contains_skip.
    + intros H. rewrite (IH H). apply orb_true_r.
    + intros Hin. rewrite Forall_forall in He. specialize (He a Hin). congruence.
  - rewrite (escape_char_plain c Hc).
    change (contains (a :: sub) ([c] ++ escape m))
      with (startswith (a :: sub) (c :: escape m) || contains (a :: sub) (escape m)).
    rewrite !orb_true_iff. intros [H | H].
    + left. apply startswith_escape; [done|].
      by rewrite escape_cons, (escape_char_plain c Hc).
    + right. by apply IH.
Qed.

Lemma escape_not_boilerplate (t : str) :
  is_boilerplate t = false -> is_boilerplate (escape t) = false.
Proof.
  unfold is_boilerplate. rewrite lower_escape, !orb_false_iff.
  intros [Hstart Hstop]. split; apply not_true_iff_false; intros H.
  - apply contains_escape in H; [| done | repeat constructor].
    change (contains (lit "start the program") (lower t) = true) in H. congruence.
  - apply contains_escape in H; [| done | repeat constructor].
    change (contains (lit "stop the program") (lower t) = true) in H. congruence.
Qed.

Lemma escape_char_inj (c1 c2 : ascii) (x y : str) :
  escape_char c1 ++ x = escape_char c2 ++ y -> c1 = c2 /\ x = y.
Proof.
  destruct (is_special c1) eqn:H1, (is_special c2) eqn:H2.
  - destruct (escape_char_special c1 H1) as (_ & _ & Hin1).
    destruct (escape_char_special c2 H2) as (_ & _ & Hin2).
    clear H1 H2.
    repeat (apply elem_of_cons in Hin1 as [-> | Hin1]);
      [.. | by apply elem_of_nil in Hin1];
      repeat (apply elem_of_cons in Hin2 as [-> | Hin2]);
      try (by apply elem_of_nil in Hin2);
      cbn; intros E; by simplify_eq.
  - destruct (escape_char_special c1 H1) as (Hh & _ & _).
    rewrite (escape_char_plain c2 H2).
    destruct (escape_char c1) as [|z e]; [done|]. injection Hh as ->.
    intros [= <- _]. discriminate H2.
  - destruct (escape_char_special c2 H2) as (Hh & _ & _).
    rewrite (escape_char_plain c1 H1).
    destruct (escape_char c2) as [|z e]; [done|]. injection Hh as ->.
    intros [= -> _]. discriminate H1.
  - rewrite (escape_char_plain c1 H1), (escape_char_plain c2 H2).
    by intros [= -> ->].
Qed.

Lemma escape_inj (a b : str) : escape a = escape b -> a = b.
Proof.
  revert b. induction a as [|c a IH]; intros [|d b]; [done | | |].
  - intros E. symmetry in E. by apply escape_nonempty in E.
  - intros E. by apply escape_nonempty in E.
  - rewrite !escape_cons. intros [-> E]%escape_char_inj. f_equal. by apply IH.
Qed.

Lemma escape_clean_step (t : str) : clean_step t -> clean_step (escape t).
Proof.
  intros [Hne Hl Ht Hb]. split.
  - by apply escape_nonempty.
  - by apply escape_lead.
  - by apply escape_trail.
  - by apply escape_not_boilerplate.
Qed.

(** A step with its label, as a line of input. *)
Definition labelled (k : nat) (u : str) : str :=
  lit "Step " ++ dec k ++ lit ": " ++ u.

Lemma labelled_stripped (k : nat) (u : str) :
  u <> [] -> no_trail_space u -> strip (labelled k u) = labelled k u.
Proof.
  intros Hne Ht. apply strip_id.
  - intros c [= <-]. reflexivity.
  - intros c. unfold labelled. rewrite !last_app.
    destruct (last u) as [y|] eqn:E; [|by apply last_None in E].
    intros [= <-]. by apply Ht.
Qed.

Lemma labelled_clean (k : nat) (u : str) :
  no_lead_space u -> no_trail_space u -> line_clean (labelled k u) = u.
Proof.
  intros Hl Ht.
  change (labelled k u)
    with (lit "Step" ++ lit " " ++ dec k ++ [] ++ ":"%char :: lit " " ++ u).
  rewrite line_clean_sep; try done.
  - by apply strip_id.
  - repeat constructor.
  - apply dec_digits.
  - apply dec_nonempty.
  - constructor.
  - repeat constructor.
Qed.

(** A labelled clean step that is new is appended as it is. *)
Lemma process_labelled (P : list str) (k : nat) (u : str) :
  clean_step u -> u ∉ P -> process_line P (labelled k u) = P ++ [u].
Proof.
  intros [Hne Hl Ht Hb] Hin. rewrite process_line_eq. unfold usable.
  rewrite labelled_stripped, labelled_clean by done.
  rewrite Hb. rewrite (bool_decide_eq_false_2 (u = [])) by done.
  rewrite (bool_decide_eq_false_2 (u ∈ P)) by done.
  rewrite bool_decide_eq_false_2; [done|].
  unfold labelled. discriminate.
Qed.

Lemma fold_labelled (U P : list str) (g : nat -> nat) :
  NoDup (P ++ U) -> Forall clean_step U ->
  fold_left process_line (imap (fun i u => labelled (g i) u) U) P = P ++ U.
Proof.
  revert P g. induction U as [|u U IH]; intros P g Hnd Hall.
  - by rewrite app_nil_r.
  - inversion Hall as [|? ? Hu HU]; subst.
    simpl. rewrite process_labelled; [|done|].
    + etrans; [apply (IH (P ++ [u]) (g ∘ S)); [|done] |].
      * by rewrite <- app_assoc.
      * by rewrite <- app_assoc.
    + apply NoDup_app in Hnd as (_ & Hd & _). intros Hin.
      apply (Hd u Hin). by left.
Qed.

Lemma lf_not_in_labelled (k : nat) (u : str) : lf ∉ u -> lf ∉ labelled k u.
Proof.
  intros Hu. unfold labelled. rewrite !not_elem_of_app. repeat split.
  - by apply not_elem_of_bool.
  - by apply not_elem_of_digits.
  - by apply not_elem_of_bool.
  - done.
Qed.

(** Clean steps, labelled and put one on a line, are read back as they
    are. *)
Lemma processed_labelled (U : list str) (g : nat -> nat) :
  NoDup U -> Forall clean_step U -> Forall (fun u => lf ∉ u) U ->
  processed_lines (join LF (imap (fun i u => labelled (g i) u) U)) = U.
Proof.
  intros Hnd Hall Hlf. unfold processed_lines.
  destruct U as [|u U]; [done|].
  rewrite (split_join lf []).
  - by rewrite fold_labelled.
  - done.
  - apply Forall_forall. intros p (i & t & -> & Hi)%elem_of_lookup_imap.
    apply lf_not_in_labelled. rewrite Forall_forall in Hlf.
    apply Hlf. by eapply list_elem_of_lookup_2.
Qed.

(** [lines[1:-1]] *)
Definition middle (l : list str) : list str := take (length l - 2) (drop 1 l).

(** The text without its start and stop lines, one step on a line: what is
    given to the processor to normalize the text again. *)
Definition renormalize_input (out : str) : str :=
  join LF (middle (split BR out)).

Lemma middle_step_lines (P : list str) : middle (step_lines P) = imap step_text P.
Proof.
  unfold middle, step_lines. cbn [app drop length].
  rewrite length_app, length_imap. simpl. rewrite drop_0.
  replace (length P + 1 - 1) with (length (imap step_text P))
    by (rewrite length_imap; lia).
  by rewrite take_app_length.
Qed.

Lemma escape_lf (t : str) : lf ∉ t -> lf ∉ escape t.
Proof. intros Ht [H | [H _]]%elem_of_escape; [discriminate H | done]. Qed.

Lemma processed_renormalize (P : list str) :
  NoDup P -> Forall clean_step P -> Forall (fun t => lf ∉ t) P ->
  processed_lines (renormalize_input (render P)) = map escape P.
Proof.
  intros Hnd Hall Hlf. unfold renormalize_input.
  rewrite split_render, middle_step_lines.
  etrans; [|apply (processed_labelled (map escape P) (fun i => i + 2))].
  - do 2 f_equal. by rewrite imap_fmap.
  - apply NoDup_fmap_2; [|done]. intros a b. apply escape_inj.
  - apply Forall_fmap. eapply Forall_impl; [exact Hall|].
    intros t. apply escape_clean_step.
  - apply Forall_fmap. eapply Forall_impl; [exact Hlf|].
    intros t. apply escape_lf.
Qed.

(** Normalizing "if a<b" and then its text again escapes the step twice. *)
Lemma renormalize_not_idempotent :
  let out := alg_html (lit "if a<b") in
  out = lit "Step 1: Start the program<br/>Step 2: if a&lt;b<br/>Step 3: Stop the program" /\
  renormalize_input out = lit "Step 2: if a&lt;b" /\
  alg_html (renormalize_input out)
  = lit "Step 1: Start the program<br/>Step 2: if a&amp;lt;b<br/>Step 3: Stop the program" /\
  alg_html (renormalize_input out) <> out /\
  processed_lines (renormalize_input out) <> processed_lines (lit "if a<b").
Proof. vm_compute. repeat split; discriminate. Qed.

(** C5, as the code has it: the steps of a normalized text, labelled and
    one on a line, are read back as the same steps in the same order; read
    from the text that is built, where they are escaped, they come back
    escaped, in the same order, so that normalizing the text again gives the
    same text when no step holds a character that [html.escape] changes. *)
Theorem renormalize_steps (alg_raw : str) :
  let steps := processed_lines alg_raw in
  let out := alg_html alg_raw in
  processed_lines
    (join LF (imap (fun i t => lit "Step " ++ dec (i + 2) ++ lit ": " ++ t) steps))
  = steps /\
  processed_lines (renormalize_input out) = map escape steps /\
  (Forall (fun t => escape t = t) steps -> alg_html (renormalize_input out) = out).
Proof.
  cbv zeta.
  destruct (processed_lines_inv alg_raw) as [Hnd Hall].
  pose proof (processed_lines_lf alg_raw) as Hlf.
  assert (processed_lines (renormalize_input (alg_html alg_raw))
          = map escape (processed_lines alg_raw)) as Hre
    by (by apply processed_renormalize).
  repeat split.
  - by apply (processed_labelled _ (fun i => i + 2)).
  - exact Hre.
  - intros Hplain. unfold alg_html at 1. rewrite Hre. unfold alg_html.
    f_equal. rewrite <- (map_id (processed_lines alg_raw)) at 2.
    apply map_ext_Forall. exact Hplain.
Qed.

(** The two steps of "Step 1: Read a and b / Step 2: Print sum" hold no
    escaped character: normalizing the text again gives the same text. *)
Lemma renormalize_steps_plain :
  let raw := lit "Step 1: Read a and b" ++ LF ++ lit "Step 2: Print sum" in
  alg_html (renormalize_input (alg_html raw)) = alg_html raw.
Proof.
  apply (renormalize_steps (lit "Step 1: Read a and b" ++ LF ++ lit "Step 2: Print sum")).
  replace (processed_lines (lit "Step 1: Read a and b" ++ LF ++ lit "Step 2: Print sum"))
    with [lit "Read a and b"; lit "Print sum"] by (vm_compute; reflexivity).
  repeat (constructor; [vm_compute; reflexivity|]). constructor.
Defined.

End NormalizerFacts.

(** ** The story and the page decorations *)

Module PdfFacts.
Import PyStrFacts ReFacts NormalizerFacts Layout Pdf.

(** *** The sections of the story *)

Definition heading (title : string) : flowable :=
  Paragraph (lit title) heading_style.

Definition aim_section (data : record) : list flowable :=
  if truthy data "aim"
  then [heading "<b>AIM :</b>";
        Paragraph (nbsp5 ++ safe_text (get data "aim" [])) body_style]
  else [].

Definition algorithm_section (data : record) : list flowable :=
  [heading "<b>ALGORITHM :</b>";
   Paragraph (Normalizer.alg_html (get data "algorithm" [])) body_style].

Definition program_section (data : record) : list flowable :=
  if truthy data "program"
  then if prog_lines data <? 15
       then [KeepTogether (program_elements data)]
       else program_elements data
  else [].

Definition output_section (data : record) : list flowable :=
  if truthy data "output"
  then [heading "<b>OUTPUT :</b>";
        Paragraph (safe_text (out_clean data)) turbo_c_style]
  else [].

Definition result_section (data : record) : list flowable :=
  if truthy data "result"
  then [PushToBottom (result_block data); KeepTogether (result_block data)]
  else [].

Definition header_section (data : record) : list flowable :=
  [header_table data; Spacer 1 ((2 # 10) * inch)%Q].

Lemma alg_html_nonempty (alg_raw : str) : Normalizer.alg_html alg_raw <> [].
Proof.
  unfold Normalizer.alg_html. rewrite render_join. unfold step_lines.
  cbn [app]. destruct (imap step_text _ ++ _); discriminate.
Qed.

(** The story is its sections, in the order of the source; the algorithm
    section is there whatever the record. *)
Lemma build_story_sections (data : record) :
  build_story data =
  header_section data ++ aim_section data ++ algorithm_section data
  ++ program_section data ++ output_section data ++ result_section data.
Proof.
  unfold build_story, header_section, aim_section, algorithm_section,
    program_section, output_section, result_section, heading.
  rewrite (bool_decide_eq_false_2 _ (alg_html_nonempty _)).
  cbn [negb].
  destruct (truthy data "aim"), (truthy data "program"), (prog_lines data <? 15),
    (truthy data "output"), (truthy data "result");
    cbn [app fold_left program_elements]; rewrite <- ?app_assoc; reflexivity.
Qed.

Lemma truthy_get (data : record) (key : string) :
  truthy data key = true -> get data key [] <> [].
Proof.
  unfold truthy, get. destruct (data !! key); [|done].
  by rewrite negb_true_iff, bool_decide_eq_false.
Qed.

(** A record with one field. *)
Lemma get_singleton (key : string) (v dflt : str) :
  get {[ key := v ]} key dflt = v.
Proof. unfold get. by rewrite lookup_singleton_eq. Qed.

Lemma truthy_singleton (key : string) (v : str) :
  v <> [] -> truthy ({[ key := v ]} : record) key = true.
Proof.
  intros Hv. unfold truthy. rewrite lookup_singleton_eq.
  by rewrite bool_decide_eq_false_2.
Qed.

(** C3: the heading and the body of the algorithm are in the story of every
    record; when no line of the algorithm field yields a step, and so when
    the field is empty, the text is "Step 1: Start the program" followed by
    "Step 2: Stop the program". *)
Theorem algorithm_always_emitted (data : record) :
  let alg_raw := get data "algorithm" [] in
  (exists pre post,
     build_story data
     = pre ++ [Paragraph (lit "<b>ALGORITHM :</b>") heading_style;
               Paragraph (Normalizer.alg_html alg_raw) body_style] ++ post) /\
  (Forall (fun line => usable line = false) (split LF alg_raw) ->
   Normalizer.alg_html alg_raw
   = lit "Step 1: Start the program<br/>Step 2: Stop the program") /\
  (alg_raw = [] ->
   Normalizer.alg_html alg_raw
   = lit "Step 1: Start the program<br/>Step 2: Stop the program").
Proof.
  cbv zeta. repeat split.
  - exists (header_section data ++ aim_section data),
      (program_section data ++ output_section data ++ result_section data).
    rewrite build_story_sections. by rewrite <- !app_assoc.
  - intros Hu. unfold Normalizer.alg_html, Normalizer.processed_lines.
    by rewrite fold_process_unusable.
  - by intros ->.
Qed.

(** An algorithm field with a start line, a blank line and a bare label. *)
Lemma algorithm_always_emitted_boilerplate :
  let alg_raw := lit "step 1 - START the program" ++ LF ++ lit "  " ++ LF ++ lit "Step 2:" in
  Normalizer.alg_html alg_raw
  = lit "Step 1: Start the program<br/>Step 2: Stop the program".
Proof.
  pose (alg_raw := lit "step 1 - START the program" ++ LF ++ lit "  " ++ LF ++ lit "Step 2:").
  destruct (algorithm_always_emitted {[ "algorithm"%string := alg_raw ]})
    as (_ & Hnone & _).
  rewrite get_singleton in Hnone.
  apply Hnone.
  replace (split LF alg_raw)
    with [lit "step 1 - START the program"; lit "  "; lit "Step 2:"]
    by (vm_compute; reflexivity).
  repeat (constructor; [vm_compute; reflexivity|]). constructor.
Defined.

(** C7: with an output field that is not empty, the text of the output
    block is the field, stripped, without its leading label: the letters of
    "output" in any mix of cases, then white space, any ':', '-' and '.', and
    white space.  This is done before [safe_text] escapes the text, and the
    block has the terminal style. *)
Theorem output_label_stripped (data : record) :
  truthy data "output" = true ->
  let out_raw := strip (get data "output" []) in
  out_clean data
  = (if bool_decide (lower (take 6 out_raw) = lit "output")
     then after_output (drop 6 out_raw) else out_raw) /\
  exists pre post,
    build_story data
    = pre ++ [Paragraph (lit "<b>OUTPUT :</b>") heading_style;
              Paragraph (safe_text (out_clean data)) turbo_c_style] ++ post.
Proof.
  intros Ho. cbv zeta. split.
  - unfold out_clean. rewrite output_label_sub.
    destruct (strip_spec (get data "output" [])) as (? & ? & _ & Hl & _).
    by rewrite (lstrip_id _ Hl).
  - exists (header_section data ++ aim_section data ++ algorithm_section data
            ++ program_section data), (result_section data).
    rewrite build_story_sections. unfold output_section, heading. rewrite Ho.
    by rewrite <- !app_assoc.
Qed.

(** The output "OUTPUT: Hello World" is shown as "Hello World", in the
    terminal style. *)
Lemma output_label_stripped_hello :
  Paragraph (lit "Hello World") turbo_c_style
  ∈ build_story {[ "output"%string := lit "OUTPUT: Hello World" ]}.
Proof.
  destruct (output_label_stripped {[ "output"%string := lit "OUTPUT: Hello World" ]})
    as (_ & pre & post & Hs); [by apply truthy_singleton|].
  rewrite Hs. unfold out_clean. rewrite get_singleton.
  apply elem_of_app. right. apply elem_of_app. left.
  vm_compute. right. left.
Defined.

(** C9: the output pattern asks nothing of the character after the letters
    of "output": whatever follows them, the six letters go, with the white
    space and separators after them; of "Outputs are correct" is left
    "s are correct". *)
Theorem output_label_no_word_boundary :
  (forall w rest : str,
     lower w = lit "output" ->
     Re.sub_start Re.output_label (w ++ rest) = after_output rest) /\
  out_clean {[ "output"%string := lit "Outputs are correct" ]} = lit "s are correct".
Proof.
  split; [|unfold out_clean; rewrite get_singleton; vm_compute; reflexivity].
  intros w rest Hw. rewrite output_label_sub.
  pose proof (lower_length w (lit "output") Hw) as Hlen. simpl in Hlen.
  assert (lstrip (w ++ rest) = w ++ rest) as ->.
  { apply lstrip_id. destruct w as [|c w]; [done|].
    intros x [= <-]. injection Hw as Hc _.
    destruct (is_space c) eqn:Hs; [|done].
    apply space_not_o in Hs. unfold Re.ci in Hs.
    by rewrite bool_decide_eq_true_2 in Hs. }
  rewrite <- Hlen, take_app_length, drop_app_length.
  by rewrite bool_decide_eq_true_2.
Qed.

(** "OUTPUTTED: 5" loses the letters of "OUTPUT" and keeps "TED: 5". *)
Lemma output_label_no_word_boundary_outputted :
  Re.sub_start Re.output_label (lit "OUTPUTTED: 5") = lit "TED: 5".
Proof.
  apply (proj1 output_label_no_word_boundary (lit "OUTPUT") (lit "TED: 5")).
  vm_compute. reflexivity.
Defined.

(** *** The page decorations and the answer *)

Section Decorations.
Variable BASE_DIR : string.
Local Open Scope Q_scope.

(** The decorations of a page when there is no watermark file. *)
Definition plain_decorations (data : record) : list canvas_op :=
  draw_decorations BASE_DIR (fun _ => false) data.

Definition is_drawImage (op : canvas_op) : bool :=
  match op with drawImage _ _ _ _ _ _ => true | _ => false end.


End Decorations.

(** A layout engine for which the file of the watermark cannot be read as
    an image: it raises when a page callback draws an image, and gives the
    document otherwise. *)
Definition unreadable_image (args : build_request) : str + str :=
  if forallb (fun op => negb (is_drawImage op)) (onFirstPage args)
  then inr (lit "%PDF")
  else inl (lit "cannot identify image file").



End PdfFacts.

(** ** Lines, escaped text and the text of a block *)

Module TextFacts.
Import PyStrFacts ReFacts NormalizerFacts Pdf.

(** *** [split] at one character *)

Lemma split_go_cur (c : ascii) (s cur : str) :
  split_go [c] s 0 cur =
  match split_go [c] s 0 [] with
  | hd :: tl => (reverse cur ++ hd) :: tl
  | [] => []
  end.
Proof.
  revert cur. induction s as [|x s IH]; intros cur.
  - simpl. by rewrite app_nil_r.
  - cbn [split_go startswith length]. case_bool_decide as Hx; cbn [andb Nat.sub].
    + by rewrite app_nil_r.
    + rewrite (IH (x :: cur)), (IH [x]).
      destruct (split_go [c] s 0 []) as [|hd tl]; [done|].
      by rewrite reverse_cons, <- app_assoc.
Qed.

Lemma split_nil (c : ascii) : split [c] [] = [[]].
Proof. done. Qed.

Lemma split_cons (c x : ascii) (s : str) :
  split [c] (x :: s) =
  if bool_decide (c = x) then [] :: split [c] s
  else match split [c] s with
       | hd :: tl => (x :: hd) :: tl
       | [] => []
       end.
Proof.
  unfold split. cbn [split_go startswith length].
  case_bool_decide; cbn [andb Nat.sub]; [done|].
  by rewrite split_go_cur.
Qed.

Lemma split_nonempty (c : ascii) (s : str) : split [c] s <> [].
Proof.
  induction s as [|x s IH]; [done|]. rewrite split_cons.
  case_bool_decide; [done|]. by destruct (split [c] s).
Qed.

(** A text free of the character goes to the head of the first piece. *)
Lemma split_app_free (c : ascii) (e s : str) :
  c ∉ e ->
  split [c] (e ++ s) =
  match split [c] s with
  | hd :: tl => (e ++ hd) :: tl
  | [] => []
  end.
Proof.
  induction e as [|x e IH]; intros He.
  - simpl. by destruct (split [c] s).
  - apply not_elem_of_cons in He as [Hx He].
    cbn [app]. rewrite split_cons, bool_decide_eq_false_2 by done.
    rewrite (IH He). by destruct (split [c] s).
Qed.

(** [s.count(c)] *)
Definition count (c : ascii) (s : str) : nat :=
  length (filter (fun x => x = c) s).

Lemma length_split (c : ascii) (s : str) :
  length (split [c] s) = S (count c s).
Proof.
  unfold count. induction s as [|x s IH]; [done|].
  rewrite split_cons. case_bool_decide as Hx.
  - subst. rewrite filter_cons_True by done. simpl. by rewrite IH.
  - rewrite filter_cons_False by congruence.
    pose proof (split_nonempty c s). destruct (split [c] s); [done|].
    exact IH.
Qed.

(** *** Escaping goes line by line *)

Lemma escape_char_lf : escape_char lf = [lf].
Proof. done. Qed.

Lemma lf_not_in_escape_char (x : ascii) : x <> lf -> lf ∉ escape_char x.
Proof.
  intros Hx Hin.
  assert (lf ∈ escape [x]) as Hin' by (unfold escape; simpl; by rewrite app_nil_r).
  apply elem_of_escape in Hin' as [H | [H _]]; [discriminate H|].
  apply list_elem_of_singleton in H. congruence.
Qed.

Lemma split_escape (s : str) : split LF (escape s) = map escape (split LF s).
Proof.
  unfold LF. fold lf. induction s as [|x s IH]; [done|].
  rewrite escape_cons, split_cons. case_bool_decide as Hx.
  - subst x. rewrite escape_char_lf. cbn [app].
    rewrite split_cons, bool_decide_eq_true_2 by done. by rewrite IH.
  - rewrite split_app_free by (apply lf_not_in_escape_char; congruence).
    rewrite IH. destruct (split [lf] s) as [|hd tl]; [done|].
    cbn [map]. by rewrite escape_cons.
Qed.

Lemma lf_not_in_join (sep : str) (l : list str) :
  lf ∉ sep -> Forall (fun p => lf ∉ p) l -> lf ∉ join sep l.
Proof.
  intros Hsep. induction 1 as [|p l Hp Hl IH]; [apply not_elem_of_nil|].
  destruct l as [|q l]; [done|].
  change (join sep (p :: q :: l)) with (p ++ sep ++ join sep (q :: l)).
  rewrite !not_elem_of_app. done.
Qed.

(** [safe_text] of a text that is not empty: the lines of the text, each
    escaped, joined by line breaks. *)
Lemma safe_text_join (text : str) :
  text <> [] -> safe_text text = join BR (map escape (split LF text)).
Proof.
  intros Hne. unfold safe_text. rewrite bool_decide_eq_false_2 by done.
  unfold replace. by rewrite split_escape.
Qed.

Lemma escaped_lines_free (text : str) :
  Forall (fun p => ("<"%char ∉ p) /\ (">"%char ∉ p) /\ (lf ∉ p))
         (map escape (split LF text)).
Proof.
  apply Forall_fmap, Forall_forall. intros p Hp. cbn.
  pose proof (split_free lf text) as Hfree. rewrite Forall_forall in Hfree.
  repeat split.
  - apply lt_not_in_escape.
  - intros [H | [_ H]]%elem_of_escape; discriminate H.
  - apply escape_lf. by apply Hfree.
Qed.

Lemma app_eq_free (x : ascii) (p rest pre post : str) :
  x ∉ p -> p ++ rest = pre ++ x :: post ->
  exists pre', pre = p ++ pre' /\ rest = pre' ++ x :: post.
Proof.
  revert pre. induction p as [|a p IH]; intros pre Hp E.
  - by exists pre.
  - apply not_elem_of_cons in Hp as [Ha Hp].
    destruct pre as [|b pre]; [injection E as E _; congruence|].
    injection E as <- E. destruct (IH pre Hp E) as (pre' & -> & ->).
    by exists pre'.
Qed.

(** In lines joined by line breaks, a [<] that is in no line opens a line
    break and a [>] that is in no line closes one. *)
Lemma join_lt (l : list str) (pre post : str) :
  Forall (fun p => "<"%char ∉ p) l ->
  join BR l = pre ++ "<"%char :: post -> lit "br/>" `prefix_of` post.
Proof.
  intros Hl. revert pre. induction Hl as [|p l Hp Hl IH]; intros pre E.
  - by destruct pre.
  - destruct l as [|q l].
    + exfalso. apply Hp. simpl in E. rewrite E.
      apply elem_of_app. right. by left.
    + change (join BR (p :: q :: l)) with (p ++ BR ++ join BR (q :: l)) in E.
      apply app_eq_free in E as (pre' & -> & E); [|done].
      destruct pre' as [|c pre'].
      * injection E as <-. by eexists.
      * injection E as <- E.
        apply (app_eq_free "<"%char (lit "br/>")) in E as (pre3 & -> & E);
          [|by apply not_elem_of_bool].
        by apply (IH pre3).
Qed.

Lemma join_gt (l : list str) (pre post : str) :
  Forall (fun p => ">"%char ∉ p) l ->
  join BR l = pre ++ ">"%char :: post -> lit "<br/" `suffix_of` pre.
Proof.
  intros Hl. revert pre. induction Hl as [|p l Hp Hl IH]; intros pre E.
  - by destruct pre.
  - destruct l as [|q l].
    + exfalso. apply Hp. simpl in E. rewrite E.
      apply elem_of_app. right. by left.
    + change (join BR (p :: q :: l))
        with (p ++ lit "<br/" ++ ">"%char :: join BR (q :: l)) in E.
      apply app_eq_free in E as (pre' & -> & E); [|done].
      apply (app_eq_free ">"%char (lit "<br/")) in E as (pre2 & -> & E);
        [|by apply not_elem_of_bool].
      destruct pre2 as [|c pre2].
      * rewrite app_nil_r. by exists p.
      * injection E as <- E. destruct (IH pre2 E) as [k ->].
        exists (p ++ lit "<br/" ++ ">"%char :: k). by rewrite <- !app_assoc.
Qed.

(** X1: [safe_text] works line by line.  The text it returns for a text
    that is not empty, cut at its line breaks, is the lines of the text, each
    one escaped: one more than the text has line feeds; and no line feed is
    left in it. *)
Theorem safe_text_lines (text : str) :
  text <> [] ->
  split (lit "<br/>") (safe_text text) = map escape (split LF text)
  /\ length (split (lit "<br/>") (safe_text text)) = S (count lf text)
  /\ lf ∉ safe_text text.
Proof.
  intros Hne. rewrite safe_text_join by done.
  pose proof (escaped_lines_free text) as Hfree.
  assert (split (lit "<br/>") (join BR (map escape (split LF text)))
          = map escape (split LF text)) as Hsplit.
  { apply (split_join "<"%char (lit "br/>")).
    - intros E. apply fmap_nil_inv in E. by apply (split_nonempty lf text).
    - eapply Forall_impl; [exact Hfree|]. by intros p (? & _). }
  split; [exact Hsplit|]. split.
  - rewrite Hsplit, length_map. apply length_split.
  - apply lf_not_in_join; [by apply not_elem_of_bool|].
    eapply Forall_impl; [exact Hfree|]. by intros p (_ & _ & ?).
Qed.

(** "a<b", a line feed and "c" give two lines and no line feed. *)
Lemma safe_text_lines_two :
  split (lit "<br/>") (safe_text (lit "a<b" ++ LF ++ lit "c"))
  = [lit "a&lt;b"; lit "c"].
Proof.
  destruct (safe_text_lines (lit "a<b" ++ LF ++ lit "c")) as (Hs & _ & _);
    [discriminate|].
  rewrite Hs. vm_compute. reflexivity.
Defined.

(** X2: no markup of the user comes through [safe_text].  In the text it
    returns a [<] is the start of a line break [<br/>] and a [>] is the end
    of one, and there is no double or single quote. *)
Theorem safe_text_markup (text pre post : str) :
  (safe_text text = pre ++ "<"%char :: post -> lit "br/>" `prefix_of` post) /\
  (safe_text text = pre ++ ">"%char :: post -> lit "<br/" `suffix_of` pre) /\
  ("034"%char ∉ safe_text text) /\ ("'"%char ∉ safe_text text).
Proof.
  destruct (decide (text = [])) as [-> | Hne].
  - repeat split; try (by destruct pre); apply not_elem_of_nil.
  - rewrite safe_text_join by done.
    pose proof (escaped_lines_free text) as Hfree.
    repeat split.
    + apply join_lt. eapply Forall_impl; [exact Hfree|]. by intros p (? & _).
    + apply join_gt. eapply Forall_impl; [exact Hfree|]. by intros p (_ & ? & _).
    + intros Hin. assert (forall l, "034"%char ∈ join BR (map escape l) -> False) as Hq.
      { clear. induction l as [|a l IH]; [by intros ?%elem_of_nil|].
        destruct l as [|b l].
        - cbn. intros [H | [_ H]]%elem_of_escape; discriminate H.
        - change (join BR (map escape (a :: b :: l)))
            with (escape a ++ BR ++ join BR (map escape (b :: l))).
          rewrite !elem_of_app. intros [H | [H | H]]; [| |by apply IH].
          + apply elem_of_escape in H as [H | [_ H]]; discriminate H.
          + revert H. by apply not_elem_of_bool. }
      by apply (Hq _ Hin).
    + intros Hin. assert (forall l, "'"%char ∈ join BR (map escape l) -> False) as Hq.
      { clear. induction l as [|a l IH]; [by intros ?%elem_of_nil|].
        destruct l as [|b l].
        - cbn. intros [H | [_ H]]%elem_of_escape; discriminate H.
        - change (join BR (map escape (a :: b :: l)))
            with (escape a ++ BR ++ join BR (map escape (b :: l))).
          rewrite !elem_of_app. intros [H | [H | H]]; [| |by apply IH].
          + apply elem_of_escape in H as [H | [_ H]]; discriminate H.
          + revert H. by apply not_elem_of_bool. }
      by apply (Hq _ Hin).
Qed.

(** In the text of "x<y" and "z" the one [<] left opens the line break. *)
Lemma safe_text_markup_break :
  lit "br/>" `prefix_of` lit "br/>z".
Proof.
  apply (safe_text_markup (lit "x<y" ++ LF ++ lit "z") (lit "x&lt;y") (lit "br/>z")).
  vm_compute. reflexivity.
Defined.

End TextFacts.

(** ** More on the story *)

Module StoryFacts.
Import PyStrFacts ReFacts NormalizerFacts Layout Pdf PdfFacts TextFacts.

(** Membership in a story written out block by block. *)
Ltac story_blocks :=
  unfold header_section, header_table, aim_section, algorithm_section,
    program_section, program_elements, output_section, result_section,
    result_block, heading.

Ltac other_blocks :=
  let E := fresh in
  intros E; first
    [ discriminate E
    | injection E as E; vm_compute in E; discriminate E
    | injection E; intros;
      match goal with
      | H : lit _ = lit _ |- _ => vm_compute in H; discriminate H
      end ].

Ltac not_in_blocks :=
  rewrite ?app_nil_r; cbn [app];
  rewrite ?not_elem_of_cons; repeat split;
  try apply not_elem_of_nil; other_blocks.

(** X3: the aim.  With an aim that is not empty its heading and its body,
    the escaped text after five non-breaking spaces, come right after the
    header table and its spacer, once.  With no aim, or an empty one, the
    story has no aim heading, and is the story of the record without the
    field. *)
Theorem aim_present_or_omitted (data : record) :
  let h := Paragraph (lit "<b>AIM :</b>") heading_style in
  (truthy data "aim" = true ->
   exists post,
     build_story data
     = header_section data
       ++ [h; Paragraph (lit "&nbsp;&nbsp;&nbsp;&nbsp;&nbsp;" ++ safe_text (get data "aim" []))
                body_style] ++ post
     /\ (h ∉ post)) /\
  (truthy data "aim" = false ->
   (h ∉ build_story data) /\ build_story data = build_story (delete "aim"%string data)).
Proof.
  cbv zeta. split; intros Ha.
  - exists (algorithm_section data ++ program_section data ++ output_section data
            ++ result_section data).
    split.
    + rewrite build_story_sections. unfold aim_section, heading. by rewrite Ha.
    + story_blocks.
      destruct (truthy data "program"), (prog_lines data <? 15),
        (truthy data "output"), (truthy data "result"); not_in_blocks.
  - split.
    + rewrite build_story_sections. story_blocks. rewrite Ha.
      destruct (truthy data "program"), (prog_lines data <? 15),
        (truthy data "output"), (truthy data "result"); not_in_blocks.
    + unfold build_story, truthy in *. unfold header_table, prog_lines, program_elements,
        out_clean, result_block, get.
      rewrite lookup_delete_eq.
      rewrite !lookup_delete_ne by done.
      destruct (data !! "aim"%string) as [v|]; [|done].
      by rewrite Ha.
Qed.

(** A record with the aim "Add two numbers". *)
Lemma aim_present_or_omitted_add :
  Paragraph (lit "&nbsp;&nbsp;&nbsp;&nbsp;&nbsp;Add two numbers") body_style
  ∈ build_story {[ "aim"%string := lit "Add two numbers" ]}.
Proof.
  destruct (aim_present_or_omitted {[ "aim"%string := lit "Add two numbers" ]})
    as [Hyes _].
  destruct Hyes as (post & Hs & _); [by apply truthy_singleton|].
  rewrite Hs, get_singleton.
  apply elem_of_app. right. right. left.
Defined.

(** X4: the result.  With a result that is not empty the story ends with the
    bottom spacer and, right after it, the result heading and body kept
    together: the spacer measures the very blocks that follow it, and it is
    the only one.  With no result, or an empty one, the story has no bottom
    spacer. *)
Theorem result_pinned_last (data : record) :
  let rb := [Paragraph (lit "<b>RESULT :</b>") heading_style;
             Paragraph (lit "&nbsp;&nbsp;&nbsp;&nbsp;&nbsp;"
                        ++ safe_text (get data "result" [])) body_style] in
  (truthy data "result" = true ->
   exists pre,
     build_story data = pre ++ [PushToBottom rb; KeepTogether rb]
     /\ (forall els, PushToBottom els ∉ pre)) /\
  (truthy data "result" = false ->
   forall els, PushToBottom els ∉ build_story data).
Proof.
  cbv zeta. split; intros Hr.
  - exists (header_section data ++ aim_section data ++ algorithm_section data
            ++ program_section data ++ output_section data).
    split.
    + rewrite build_story_sections. unfold result_section, result_block.
      rewrite Hr. by rewrite <- !app_assoc.
    + intros els. story_blocks.
      destruct (truthy data "aim"), (truthy data "program"),
        (prog_lines data <? 15), (truthy data "output"); not_in_blocks.
  - intros els. rewrite build_story_sections. story_blocks. rewrite Hr.
    destruct (truthy data "aim"), (truthy data "program"),
      (prog_lines data <? 15), (truthy data "output"); not_in_blocks.
Qed.

(** A record with the result "Done". *)
Lemma result_pinned_last_done :
  last (build_story {[ "result"%string := lit "Done" ]})
  = Some (KeepTogether
            [Paragraph (lit "<b>RESULT :</b>") heading_style;
             Paragraph (lit "&nbsp;&nbsp;&nbsp;&nbsp;&nbsp;Done") body_style]).
Proof.
  destruct (result_pinned_last {[ "result"%string := lit "Done" ]}) as [Hyes _].
  destruct Hyes as (pre & Hs & _); [by apply truthy_singleton|].
  rewrite Hs, get_singleton.
  change (pre ++ [?a; ?b]) with (pre ++ [a] ++ [b]).
  rewrite app_assoc, last_snoc. reflexivity.
Defined.

(** X5: the size of the story.  It has at least the header table, its
    spacer and the two blocks of the algorithm, and at most twelve blocks;
    when aim, program, output and result are all missing or empty it is these
    four blocks. *)
Theorem story_size (data : record) :
  4 <= length (build_story data) <= 12 /\
  (truthy data "aim" = false -> truthy data "program" = false ->
   truthy data "output" = false -> truthy data "result" = false ->
   build_story data
   = [header_table data; Spacer 1 ((2 # 10) * inch)%Q;
      Paragraph (lit "<b>ALGORITHM :</b>") heading_style;
      Paragraph (Normalizer.alg_html (get data "algorithm" [])) body_style]).
Proof.
  rewrite build_story_sections. story_blocks. split.
  - destruct (truthy data "aim"), (truthy data "program"),
      (prog_lines data <? 15), (truthy data "output"), (truthy data "result");
      cbn [app length]; lia.
  - by intros -> -> -> ->.
Qed.

(** The record with a title and an algorithm only. *)
Lemma story_size_title_algorithm :
  length (build_story {[ "title"%string := lit "Sum of Two Numbers" ]}) = 4.
Proof.
  destruct (story_size {[ "title"%string := lit "Sum of Two Numbers" ]}) as [_ Hmin].
  rewrite Hmin; [reflexivity | ..];
    unfold truthy; by rewrite lookup_singleton_ne.
Defined.

(** X6: the header table.  The title cell holds "EXPERIMENT" when the record
    has no title field, and the escaped title when it has one, an empty one
    too.  The text after the date label is never empty: it is the escaped
    date, stripped, or ten non-breaking spaces when that is empty. *)
Theorem header_fallbacks (data : record) :
  exists title_text date_text widths,
    header_table data
    = Table [ [ CellParagraph (lit "Exp.no : " ++ safe_text (get data "expNo" [])) table_left;
                CellParagraph title_text table_center ];
              [ CellParagraph (lit "Date &nbsp;&nbsp;&nbsp;: " ++ date_text) table_left;
                CellStr [] ] ] widths
    /\ (data !! "title"%string = None -> title_text = lit "EXPERIMENT")
    /\ (forall t, data !! "title"%string = Some t -> title_text = safe_text t)
    /\ date_text <> []
    /\ (strip (safe_text (get data "date" [])) = [] ->
        date_text = lit "&nbsp;&nbsp;&nbsp;&nbsp;&nbsp;&nbsp;&nbsp;&nbsp;&nbsp;&nbsp;")
    /\ (strip (safe_text (get data "date" [])) <> [] ->
        date_text = strip (safe_text (get data "date" []))).
Proof.
  unfold header_table. eexists _, _, _. split; [reflexivity|].
  repeat split.
  - unfold get. by intros ->.
  - unfold get. by intros t ->.
  - case_bool_decide; [discriminate | done].
  - intros E. by rewrite bool_decide_eq_true_2.
  - intros E. by rewrite bool_decide_eq_false_2.
Qed.

(** X7: the lines of a program.  The count that decides whether a program
    is kept together is one more than the number of line feeds of the field,
    so with a program that is not empty the two program blocks are kept
    together exactly when the field has fewer than 14 line feeds; a line feed
    at the end counts. *)
Theorem program_lines_count (data : record) :
  truthy data "program" = true ->
  prog_lines data = S (count lf (get data "program" []))
  /\ (KeepTogether (program_elements data) ∈ build_story data
      <-> count lf (get data "program" []) < 14).
Proof.
  intros Hp.
  assert (prog_lines data = S (count lf (get data "program" []))) as Hn
    by apply length_split.
  split; [exact Hn|].
  rewrite build_story_sections. unfold program_section. rewrite Hp.
  destruct (prog_lines data <? 15) eqn:Hlt.
  - apply Nat.ltb_lt in Hlt. split; [lia|]. intros _.
    rewrite !elem_of_app. do 3 right. left. left.
  - apply Nat.ltb_ge in Hlt. split; [|lia]. intros Hin. exfalso. revert Hin.
    story_blocks.
    destruct (truthy data "aim"), (truthy data "output"), (truthy data "result");
      match goal with |- ?x ∈ ?l -> False => change (x ∉ l) end;
      not_in_blocks.
Qed.

(** Fourteen lines that end with a line feed are split as fifteen. *)
Lemma program_lines_count_trailing :
  prog_lines {[ "program"%string := concat (replicate 14 (lit "x;" ++ LF)) ]} = 15.
Proof.
  destruct (program_lines_count
              {[ "program"%string := concat (replicate 14 (lit "x;" ++ LF)) ]})
    as [Hn _]; [by apply truthy_singleton|].
  rewrite Hn, get_singleton. vm_compute. reflexivity.
Defined.

(** X8: the text of the output block.  What is left of the output after its
    label is an end of the stripped field, with no white space at its start
    or end; a field that is the label alone leaves an empty text, and the
    output section is in the story all the same. *)
Theorem output_text_is_suffix (data : record) :
  out_clean data `suffix_of` strip (get data "output" [])
  /\ no_lead_space (out_clean data)
  /\ no_trail_space (out_clean data)
  /\ (truthy data "output" = true -> out_clean data = [] ->
      exists pre post,
        build_story data
        = pre ++ [Paragraph (lit "<b>OUTPUT :</b>") heading_style;
                  Paragraph [] turbo_c_style] ++ post).
Proof.
  unfold out_clean.
  destruct (strip_spec (get data "output" [])) as (ws1 & ws2 & _ & Hl & Ht).
  set (out_raw := strip (get data "output" [])) in *.
  pose proof (sub_start_suffix Re.output_label out_raw) as Hsuf.
  split; [exact Hsuf|]. split; [|split].
  - rewrite output_label_sub, (lstrip_id _ Hl).
    case_bool_decide; [|done]. unfold after_output.
    destruct (lstrip_spec (skip Re.is_sep (lstrip (drop 6 out_raw))))
      as (? & _ & _ & H'). exact H'.
  - destruct Hsuf as [k Hk]. intros c Hc. apply Ht. rewrite Hk.
    rewrite last_app, Hc. done.
  - intros Ho Hempty.
    exists (header_section data ++ aim_section data ++ algorithm_section data
            ++ program_section data), (result_section data).
    rewrite build_story_sections. unfold output_section, heading, out_clean.
    fold out_raw. rewrite Ho, Hempty.
    unfold safe_text. rewrite bool_decide_eq_true_2 by done.
    by rewrite <- !app_assoc.
Qed.

(** The output "Output:" leaves an empty terminal block. *)
Lemma output_text_is_suffix_label_only :
  Paragraph [] turbo_c_style ∈ build_story {[ "output"%string := lit "Output:" ]}.
Proof.
  destruct (output_text_is_suffix {[ "output"%string := lit "Output:" ]})
    as (_ & _ & _ & Hempty).
  destruct Hempty as (pre & post & Hs).
  - by apply truthy_singleton.
  - unfold out_clean. rewrite get_singleton. vm_compute. reflexivity.
  - rewrite Hs. apply elem_of_app. right. right. left.
Defined.

(** C6: with a program field that is not empty, the story has the program
    heading and the program body once, next to each other.  The lines of the
    text are counted as one more than its line feeds, which is the number of
    the lines that the text is the joining of.  With fewer than 15 lines the
    two blocks are the content of one [KeepTogether]; with 15 lines or more
    they stand in the story itself, and no [KeepTogether] of the story holds
    the heading. *)
Theorem program_atomicity (data : record) :
  truthy data "program" = true ->
  let text := get data "program" [] in
  let n := S (count lf text) in
  let h := Paragraph (lit "<b>PROGRAM :</b>") heading_style in
  let b := Paragraph (safe_text text) body_style in
  (forall lines,
     lines <> [] -> Forall (fun line => lf ∉ line) lines ->
     text = join LF lines -> length lines = n) /\
  exists pre post,
    build_story data
    = pre ++ (if n <? 15 then [KeepTogether [h; b]] else [h; b]) ++ post
    /\ (h ∉ pre ++ post)
    /\ (forall els, KeepTogether els ∈ (pre ++ post) -> h ∉ els).
Proof.
  intros Hp. cbv zeta. split.
  { intros lines Hne Hfree ->.
    transitivity (length (split LF (join LF lines)));
      [|exact (length_split lf (join LF lines))].
    f_equal. symmetry. exact (split_join lf [] lines Hne Hfree). }
  exists (header_section data ++ aim_section data ++ algorithm_section data),
    (output_section data ++ result_section data).
  split; [|split].
  - rewrite build_story_sections. unfold program_section. rewrite Hp.
    assert (prog_lines data = S (count lf (get data "program" []))) as ->
      by apply length_split.
    unfold program_elements. rewrite <- !app_assoc.
    by destruct (S (count lf (get data "program" [])) <? 15).
  - unfold header_section, header_table, aim_section, algorithm_section,
      output_section, result_section, heading.
    destruct (truthy data "aim"), (truthy data "output"), (truthy data "result");
      not_in_blocks.
  - intros els.
    unfold header_section, header_table, aim_section, algorithm_section,
      output_section, result_section, result_block, heading.
    destruct (truthy data "aim"), (truthy data "output"), (truthy data "result");
      rewrite ?app_nil_r; cbn [app];
      rewrite ?elem_of_cons, elem_of_nil;
      intros Hin; decompose [or] Hin; try discriminate; try done;
      simplify_eq; not_in_blocks.
Qed.

(** A program of two lines is kept together; the blocks of a program of
    fifteen lines stand in the story itself, outside every [KeepTogether]. *)
Lemma program_atomicity_short_and_long :
  let short := lit "int x;" ++ LF ++ lit "return 0;" in
  let long := join LF (replicate 15 (lit "x;")) in
  let h := Paragraph (lit "<b>PROGRAM :</b>") heading_style in
  KeepTogether [h; Paragraph (lit "int x;<br/>return 0;") body_style]
  ∈ build_story {[ "program"%string := short ]}
  /\ (exists pre post,
        build_story {[ "program"%string := long ]}
        = pre ++ [h; Paragraph (safe_text long) body_style] ++ post)
  /\ (forall els,
        KeepTogether els ∈ build_story {[ "program"%string := long ]} -> h ∉ els).
Proof.
  cbv zeta. split.
  - pose proof (program_atomicity
                  {[ "program"%string := lit "int x;" ++ LF ++ lit "return 0;" ]}
                  ltac:(by apply truthy_singleton)) as H.
    cbv zeta in H. rewrite !get_singleton in H.
    destruct H as (_ & pre & post & Hs & _). rewrite Hs.
    apply elem_of_app. right. apply elem_of_app. left.
    vm_compute. left.
  - pose proof (program_atomicity
                  {[ "program"%string := join LF (replicate 15 (lit "x;")) ]}
                  ltac:(by apply truthy_singleton)) as H.
    cbv zeta in H. rewrite !get_singleton in H.
    destruct H as (Hn & pre & post & Hs & Hh & Hk).
    assert (S (count lf (join LF (replicate 15 (lit "x;")))) = 15) as E.
    { symmetry. rewrite <- (Hn (replicate 15 (lit "x;"))); [done | done | | done].
      apply Forall_replicate, (bool_decide_unpack _). vm_compute. exact I. }
    rewrite E in Hs. change (15 <? 15) with false in Hs. cbv iota in Hs.
    split; [by exists pre, post|].
    intros els. rewrite Hs, !elem_of_app, !elem_of_cons, elem_of_nil.
    intros [Hin | [[Hin | [Hin | []]] | Hin]]; try discriminate Hin.
    + apply Hk, elem_of_app. by left.
    + apply Hk, elem_of_app. by right.
Defined.

End StoryFacts.

(** ** More on the bottom spacer *)

Module WrapFacts.
Import Layout LayoutFacts.
Local Open Scope Q_scope.

Section Wrap.
Context {F : Type} `{Flowable F}.

Lemma total_height_nonneg (els : list F) (W A : Q) :
  Forall (fun el => 0 <= snd (el_wrap el W A)) els -> 0 <= total_height els W A.
Proof.
  induction 1 as [|el els Hel _ IH]; simpl; [lra|]. lra.
Qed.

(** X9: the spacer fits when its blocks fit.  When no block reports a
    negative height and the available height is not negative, the height
    the spacer reports is not negative; it is within the available height
    exactly when the blocks and the margin are, and then the spacer, the
    blocks and the margin fill the available height. *)
Theorem spacer_fits_iff (self : PushToBottomSpacer F) (A W : Q) :
  Forall (fun el => 0 <= snd (el_wrap el W A)) (elements_to_push self) ->
  0 <= A ->
  let H := total_height (elements_to_push self) W A in
  let h := snd (snd (wrap self W A)) in
  0 <= h
  /\ (h <= A <-> H + safety_margin <= A)
  /\ (h <= A -> h + (H + safety_margin) == A).
Proof.
  intros Hels HA. cbv zeta.
  pose proof (total_height_nonneg _ W A Hels) as HH.
  pose proof (measure_total (elements_to_push self) W A) as Hm.
  unfold wrap, safety_margin in *.
  destruct (Qlt_le_dec A (measure (elements_to_push self) W A + (5 # 100) * inch))
    as [Hlt | Hge]; simpl.
  - unfold inch in *. repeat split; intros; lra.
  - unfold inch in *. repeat split; intros; lra.
Qed.

End Wrap.

(** A block of a given height. *)
#[local] Instance block_of_height : Flowable Q := fun h w _ => (w, h).

(** Blocks of 20 and 30 points with 100 points left: the spacer and what it
    pushes fill the 100 points. *)
Lemma spacer_fits_iff_fills :
  snd (snd (wrap (mkSpacer [20; 30] 0) 400 100)) + (50 + safety_margin) == 100.
Proof.
  destruct (spacer_fits_iff (mkSpacer [20; 30] 0) 100 400) as (_ & Hiff & Hfill).
  - repeat constructor; vm_compute; discriminate.
  - vm_compute. discriminate.
  - apply Hfill. apply Hiff. vm_compute. discriminate.
Defined.

End WrapFacts.

(** ** The order of the steps *)

Module OrderFacts.
Import PyStrFacts ReFacts NormalizerFacts Normalizer.

(** The first occurrence of every text of a list, in order. *)
Fixpoint first_occurrences (l : list str) : list str :=
  match l with
  | [] => []
  | x :: l' => x :: filter (fun y => y <> x) (first_occurrences l')
  end.

(** The cleaned texts of the lines that yield a step. *)
Definition cleaned (lines : list str) : list str :=
  map (fun line => line_clean (strip line))
      (filter (fun line => usable line = true) lines).

Lemma filter_not_in_snoc (P : list str) (c : str) (l : list str) :
  filter (fun y => y ∉ P ++ [c]) l
  = filter (fun y => y ∉ P) (filter (fun y => y <> c) l).
Proof.
  rewrite list_filter_filter. apply list_filter_iff. intros y.
  rewrite not_elem_of_app, list_elem_of_singleton. tauto.
Qed.

Lemma filter_not_in_absorb (P : list str) (c : str) (l : list str) :
  c ∈ P ->
  filter (fun y => y ∉ P) (filter (fun y => y <> c) l) = filter (fun y => y ∉ P) l.
Proof.
  intros Hc. rewrite list_filter_filter. apply list_filter_iff. intros y.
  split; [tauto|]. intros Hy. split; [done|]. intros ->. done.
Qed.

Lemma fold_process_first (lines : list str) (P : list str) :
  fold_left process_line lines P
  = P ++ filter (fun y => y ∉ P) (first_occurrences (cleaned lines)).
Proof.
  revert P. induction lines as [|line lines IH]; intros P.
  - simpl. by rewrite app_nil_r.
  - cbn [fold_left]. rewrite process_line_eq. unfold cleaned.
    destruct (usable line) eqn:Hu.
    + rewrite filter_cons_True by done. cbn [map first_occurrences andb].
      fold (cleaned lines). set (c := line_clean (strip line)).
      case_bool_decide as Hin; cbn [negb].
      * rewrite IH. rewrite filter_cons_False by tauto.
        by rewrite filter_not_in_absorb.
      * rewrite IH. rewrite filter_cons_True by done.
        rewrite filter_not_in_snoc. by rewrite <- app_assoc.
    + rewrite filter_cons_False by congruence. cbn [andb]. apply IH.
Qed.

(** X10: the steps are the cleaned texts of the usable lines, each one where
    it first occurs: a text that comes again is dropped, and the order of
    the lines is kept. *)
Theorem steps_first_occurrences (alg_raw : str) :
  processed_lines alg_raw = first_occurrences (cleaned (split LF alg_raw)).
Proof.
  unfold processed_lines. rewrite fold_process_first. cbn [app].
  induction (first_occurrences (cleaned (split LF alg_raw))) as [|y l IH]; [done|].
  rewrite filter_cons_True by apply not_elem_of_nil. by rewrite IH.
Qed.

End OrderFacts.

(** ** The endpoints that ask the model *)

Module ApiFacts.
Import PyStrFacts ReFacts NormalizerFacts Pdf TextFacts Api.

(** *** The fence *)

Lemma strip_pad (ws1 x ws2 : str) :
  all_space ws1 -> all_space ws2 -> no_lead_space x -> no_trail_space x ->
  strip (ws1 ++ x ++ ws2) = x.
Proof.
  intros H1 H2 Hl Ht. unfold strip. rewrite lstrip_spaces by done.
  destruct x as [|c x].
  - simpl. rewrite <- (app_nil_r ws2), lstrip_spaces by done. done.
  - rewrite (lstrip_id ((c :: x) ++ ws2)) by (intros y [= <-]; by apply Hl).
    unfold rstrip. rewrite reverse_app, lstrip_spaces.
    + rewrite lstrip_id; [apply reverse_involutive|].
      intros y Hy. rewrite head_reverse in Hy. by apply Ht.
    + unfold all_space in *. rewrite Forall_forall in H2.
      apply Forall_forall. intros y Hy. apply H2. by apply elem_of_reverse.
Qed.

Lemma slice_fenced (open body close : str) :
  slice (length open) (length close) (open ++ body ++ close) = body.
Proof.
  unfold slice. rewrite !length_app.
  replace (length open + (length body + length close) - length close)
    with (length (open ++ body)) by (rewrite length_app; lia).
  rewrite app_assoc, take_app_length. by rewrite drop_app_length.
Qed.

Lemma fenced_stripped (open body close ws1 ws2 : str) :
  all_space ws1 -> all_space ws2 ->
  no_lead_space open -> open <> [] -> no_trail_space close -> close <> [] ->
  strip (ws1 ++ (open ++ body ++ close) ++ ws2) = open ++ body ++ close.
Proof.
  intros H1 H2 Ho Hone Hc Hcne. apply strip_pad; try done.
  - destruct open as [|c open]; [done|]. intros y [= <-]. by apply Ho.
  - intros y. rewrite !last_app.
    destruct (last close) as [z|] eqn:E; [|by apply last_None in E].
    intros [= <-]. by apply Hc.
Qed.

(** X11: the fence of a reply.  A reply that starts, after white space, with
    three backquotes and "json" loses these and its last three characters,
    whatever they are: the closing fence is not looked at, and a reply whose
    fence is not closed loses three characters of its content.  The same
    holds with three backquotes alone.  A reply that does not start with
    three backquotes is only stripped. *)
Theorem unfence_cuts_three (ws1 ws2 body close : str) :
  all_space ws1 -> all_space ws2 -> length close = 3 -> no_trail_space close ->
  unfence (ws1 ++ (lit "```json" ++ body ++ close) ++ ws2) = body
  /\ (startswith (lit "json") (body ++ close) = false ->
      unfence (ws1 ++ (lit "```" ++ body ++ close) ++ ws2) = body)
  /\ (startswith (lit "```") (strip body) = false -> unfence body = strip body).
Proof.
  intros H1 H2 Hlen Ht.
  assert (close <> []) as Hne by (by destruct close).
  repeat split.
  - unfold unfence. rewrite fenced_stripped; try done.
    + rewrite startswith_self.
      change 7 with (length (lit "```json")). rewrite <- Hlen.
      apply slice_fenced.
    + intros y [= <-]. reflexivity.
  - intros Hj. unfold unfence. rewrite fenced_stripped; try done.
    + change (startswith (lit "```json") (lit "```" ++ body ++ close))
        with (startswith (lit "json") (body ++ close)).
      rewrite Hj, startswith_self.
      change 3 with (length (lit "```")) at 1. rewrite <- Hlen.
      apply slice_fenced.
    + intros y [= <-]. reflexivity.
  - intros Hs. unfold unfence. rewrite Hs.
    destruct (startswith (lit "```json") (strip body)) eqn:E; [|done].
    apply startswith_spec in E as [post E].
    assert (startswith (lit "```") (strip body) = true) as Hs'; [|congruence].
    apply startswith_spec. exists (lit "json" ++ post). by rewrite E.
Qed.

(** A reply in a closed fence, and one whose fence is not closed. *)
Lemma unfence_cuts_three_reply :
  unfence (lit "```json" ++ LF ++ lit "[1, 2]" ++ LF ++ lit "```" ++ LF)
  = LF ++ lit "[1, 2]" ++ LF
  /\ unfence (lit "```json[1, 2, 345]") = lit "[1, 2, 3".
Proof.
  assert (all_space LF) as Hlf by (repeat constructor).
  assert (all_space []) as Hnil by constructor.
  split.
  - destruct (unfence_cuts_three [] LF (LF ++ lit "[1, 2]" ++ LF) (lit "```")
                Hnil Hlf eq_refl) as (H & _ & _).
    + intros c [= <-]. reflexivity.
    + exact H.
  - destruct (unfence_cuts_three [] [] (lit "[1, 2, 3") (lit "45]")
                Hnil Hnil eq_refl) as (H & _ & _).
    + intros c [= <-]. reflexivity.
    + exact H.
Defined.

(** *** The data URL of an image *)

Lemma contains_char (c : ascii) (s : str) : contains [c] s = true <-> c ∈ s.
Proof.
  rewrite contains_spec. split.
  - intros (pre & post & ->). rewrite !elem_of_app. right. left. by left.
  - intros (pre & post & ->)%list_elem_of_split. by exists pre, post.
Qed.

(** The pieces around the first comma and the second one. *)
Lemma split_first (c : ascii) (header rest : str) :
  c ∉ header ->
  split [c] (header ++ c :: rest) = header :: split [c] rest.
Proof.
  intros Hh. rewrite (split_app_free c header _ Hh), split_cons.
  by rewrite bool_decide_eq_true_2, app_nil_r.
Qed.

Lemma split_free_one (c : ascii) (s : str) : c ∉ s -> split [c] s = [s].
Proof.
  intros Hs. rewrite <- (app_nil_r s) at 1.
  by rewrite (split_app_free c s [] Hs), split_nil, app_nil_r.
Qed.

(** X12: the data URL.  The payload of an image is what stands between the
    first comma and the second one (up to the end when there is one comma
    only), or the whole text when there is no comma; it holds no comma, and
    taking it never fails.  What follows a second comma is dropped. *)
Theorem strip_data_url_payload (img_b64 : str) :
  exists payload,
    strip_data_url img_b64 = inr payload
    /\ (","%char ∉ payload)
    /\ (","%char ∉ img_b64 -> payload = img_b64)
    /\ (forall header middle tail,
          ","%char ∉ header -> ","%char ∉ middle ->
          img_b64 = header ++ lit "," ++ middle
          \/ img_b64 = header ++ lit "," ++ middle ++ lit "," ++ tail ->
          payload = middle).
Proof.
  unfold strip_data_url.
  pose proof (split_free ","%char img_b64) as Hfree.
  pose proof (length_split ","%char img_b64) as Hlen.
  change (lit ",") with [","%char].
  destruct (contains [","%char] img_b64) eqn:Hc.
  - apply contains_char in Hc.
    assert (0 < count ","%char img_b64) as Hpos.
    { unfold count. apply list_elem_of_split in Hc as (pre & post & ->).
      rewrite filter_app, length_app, filter_cons_True by done. simpl. lia. }
    destruct (split [","%char] img_b64) as [|p0 [|p1 ps]] eqn:Hs;
      [simpl in Hlen; lia | simpl in Hlen; lia |].
    exists p1. cbn. repeat split.
    + rewrite Forall_forall in Hfree. apply Hfree. right. left.
    + done.
    + intros header middle tail Hh Hm [-> | ->]; cbn [app] in Hs.
      * rewrite (split_first _ _ _ Hh), (split_free_one _ _ Hm) in Hs.
        by injection Hs as _ <- _.
      * rewrite (split_first _ _ _ Hh), (split_first _ _ _ Hm) in Hs.
        by injection Hs as _ <- _.
  - exists img_b64. repeat split.
    + intros Hin. apply contains_char in Hin. congruence.
    + intros header middle tail _ _ E. exfalso.
      apply not_true_iff_false in Hc. apply Hc, contains_char.
      destruct E as [-> | ->]; rewrite !elem_of_app; right; left; by left.
Qed.

(** Of a data URL the payload is the base64 text, and of a text with three
    commas the piece between the first two. *)
Lemma strip_data_url_payload_two_commas :
  strip_data_url (lit "data:image/png;base64,iVBORw0K") = inr (lit "iVBORw0K")
  /\ strip_data_url (lit "a,b,c,d") = inr (lit "b").
Proof.
  split.
  - destruct (strip_data_url_payload (lit "data:image/png;base64,iVBORw0K"))
      as (payload & -> & _ & _ & Hmid).
    f_equal.
    apply (Hmid (lit "data:image/png;base64") (lit "iVBORw0K") []);
      [apply (bool_decide_unpack _); vm_compute; exact I ..|].
    left. reflexivity.
  - destruct (strip_data_url_payload (lit "a,b,c,d"))
      as (payload & -> & _ & _ & Hmid).
    f_equal.
    apply (Hmid (lit "a") (lit "b") (lit "c,d"));
      [apply (bool_decide_unpack _); vm_compute; exact I ..|].
    right. reflexivity.
Defined.

(** *** The answers of the two endpoints *)

Section Endpoints.
Variable J : Type.
Variable json_loads : str -> str + J.
Variable b64decode : str -> str + str.
Variable generate_content : str -> string -> list part -> exn + str.
Variables check_prompt_head check_prompt_mid check_prompt_tail : str.
Variable extract_prompt : str.

#[local] Abbreviation check_code :=
  (check_code J json_loads generate_content
     check_prompt_head check_prompt_mid check_prompt_tail).
#[local] Abbreviation extract_text :=
  (extract_text J json_loads b64decode generate_content extract_prompt).

(** X13: the key comes first.  When the header X-API-Key is missing, empty
    or white space, both endpoints answer 401 with the text that asks for
    the key, whatever the body of the request, also when it has no image,
    and whatever the model would say. *)
Theorem api_key_required (headers : gmap string str) (data : record)
    (images : list str) :
  strip (get headers "X-API-Key" []) = [] ->
  check_code headers data = (Text API_KEY_MISSING, 401)
  /\ extract_text headers images = (Text API_KEY_MISSING, 401).
Proof.
  intros Hk. unfold Api.check_code, Api.extract_text, get_gemini_client.
  rewrite Hk. done.
Qed.

(** X14: the reply of the model, in [check_code] with a key.  The answer is
    200 with a value exactly when the model replies and the reply, without
    its fence, parses to that value.  A reply that does not parse is
    answered 401 with the message of the parser, like a missing key; an
    exception of the model that is no [ValueError] is answered 500. *)
Theorem check_code_reply (headers : gmap string str) (data : record) :
  let key := strip (get headers "X-API-Key" []) in
  let prompt := check_prompt_head ++ get data "program" [] ++ check_prompt_mid
                ++ get data "output" [] ++ check_prompt_tail in
  let reply := generate_content key "gemini-2.5-flash" [TextPart prompt] in
  key <> [] ->
  (forall j, check_code headers data = (JsonValue j, 200)
             <-> exists text, reply = inr text /\ json_loads (unfence text) = inr j) /\
  (forall text msg, reply = inr text -> json_loads (unfence text) = inl msg ->
                    check_code headers data = (Text msg, 401)) /\
  (forall msg, reply = inl (Exception msg) ->
               check_code headers data = (JsonError msg, 500)).
Proof.
  cbv zeta. intros Hk. unfold Api.check_code, get_gemini_client.
  rewrite bool_decide_eq_false_2 by done. cbn.
  destruct (generate_content _ _ _) as [[m|m]|text] eqn:Hg; cbn.
  - repeat split; try done. intros (text & [=] & _).
  - repeat split; try done.
    + intros (text & [=] & _).
    + by intros msg [= ->].
  - unfold parse_reply.
    destruct (json_loads (unfence text)) as [msg|j'] eqn:Hj; cbn.
    + repeat split; try done.
      * intros (t & [= <-] & Ht). congruence.
      * intros t msg' [= <-] Ht. congruence.
    + repeat split; try done.
      * intros [= ->]. eauto.
      * intros (t & [= <-] & Ht). congruence.
      * intros t msg' [= <-] Ht. congruence.
Qed.

(** X15: the images of [extract_text], with a key.  The answer is 400
    exactly when the request has no image.  With images that all decode, the
    model is asked once, with the prompt and then one JPEG part for each
    image, in order; an image that does not decode is answered 401 with the
    message of the decoder. *)
Theorem extract_text_images (headers : gmap string str) (images : list str) :
  let key := strip (get headers "X-API-Key" []) in
  key <> [] ->
  (snd (extract_text headers images) = 400 <-> images = []) /\
  (forall datas,
     images <> [] ->
     Forall2 (fun img data => exists payload,
                strip_data_url img = inr payload /\ b64decode payload = inr data)
             images datas ->
     extract_text headers images
     = finish J (text ← generate_content key "gemini-2.5-flash"
                          (TextPart extract_prompt
                           :: map (fun data => BytesPart data "image/jpeg") datas);
                 parse_reply J json_loads text)) /\
  (forall good datas img payload msg rest,
     images = good ++ img :: rest ->
     Forall2 (fun img data => exists payload,
                strip_data_url img = inr payload /\ b64decode payload = inr data)
             good datas ->
     strip_data_url img = inr payload -> b64decode payload = inl msg ->
     extract_text headers images = (Text msg, 401)).
Proof.
  cbv zeta. intros Hk. unfold Api.extract_text, get_gemini_client.
  rewrite bool_decide_eq_false_2 by done.
  split; [|split].
  - case_bool_decide as Hi; [done|]. split; [|done].
    intros Hs. exfalso. revert Hs.
    destruct (image_parts b64decode images) as [[m|m]|parts]; cbn; try done.
    destruct (generate_content _ _ _) as [[m|m]|text]; cbn; try done.
    unfold parse_reply. by destruct (json_loads _).
  - intros datas Hne Hall. rewrite bool_decide_eq_false_2 by done.
    assert (image_parts b64decode images
            = inr (map (fun data => BytesPart data "image/jpeg") datas)) as ->; [|done].
    clear Hne. induction Hall as [|img data images datas (payload & Hp & Hd) _ IH];
      [done|].
    cbn. rewrite Hp. cbn. rewrite Hd. cbn. rewrite IH. done.
  - intros good datas img payload msg rest -> Hall Hp Hd.
    rewrite bool_decide_eq_false_2 by (by destruct good).
    assert (image_parts b64decode (good ++ img :: rest) = inl (ValueError msg))
      as ->; [|done].
    induction Hall as [|img' data good datas (payload' & Hp' & Hd') _ IH].
    + cbn. rewrite Hp. cbn. by rewrite Hd.
    + cbn. rewrite Hp'. cbn. rewrite Hd'. cbn. by rewrite IH.
Qed.

End Endpoints.

(** Without the header both endpoints ask for the key. *)
Lemma api_key_required_no_header :
  check_code unit (fun _ => inr tt) (fun _ _ _ => inr []) [] [] [] ∅ ∅
  = (Text API_KEY_MISSING, 401).
Proof.
  apply (api_key_required unit (fun _ => inr tt) (fun _ => inr [])
           (fun _ _ _ => inr []) [] [] [] [] ∅ ∅ []).
  reflexivity.
Defined.

(** With the key "k" and a model that replies "oops", which does not parse,
    the answer is 401. *)
Lemma check_code_reply_not_json :
  check_code unit (fun _ => inl (lit "Expecting value")) (fun _ _ _ => inr (lit "oops"))
    [] [] [] {[ "X-API-Key"%string := lit "k" ]} ∅
  = (Text (lit "Expecting value"), 401).
Proof.
  destruct (check_code_reply unit (fun _ => inl (lit "Expecting value"))
              (fun _ _ _ => inr (lit "oops")) [] [] []
              {[ "X-API-Key"%string := lit "k" ]} ∅) as (_ & Hbad & _).
  - rewrite PdfFacts.get_singleton. discriminate.
  - by apply (Hbad (lit "oops")).
Defined.

(** With the key "k" and no image the answer is 400. *)
Lemma extract_text_images_none :
  snd (extract_text unit (fun _ => inr tt) (fun _ => inr []) (fun _ _ _ => inr [])
         [] {[ "X-API-Key"%string := lit "k" ]} []) = 400.
Proof.
  destruct (extract_text_images unit (fun _ => inr tt) (fun _ => inr [])
              (fun _ _ _ => inr []) [] {[ "X-API-Key"%string := lit "k" ]} [])
    as (H400 & _).
  - rewrite PdfFacts.get_singleton. discriminate.
  - by apply H400.
Defined.

End ApiFacts.

(** ** The table of experiments *)

Module DbFacts.
Import Db.
Local Open Scope Z_scope.

(** The columns that a save binds, in the order of the tuple. *)
Definition columns : list string :=
  ["name"; "regNo"; "expNo"; "date"; "title"; "aim"; "algorithm"; "program";
   "output"; "result"]%string.

(** The value sent for a column. *)
Definition sent (data : save_request) (key : string) : option str :=
  match fields data !! key with
  | Some v => v
  | None => None
  end.

(** The row made of the values sent, with a time of creation. *)
Definition row_of (data : save_request) (t : Z) : experiment :=
  mkExperiment (sent data "name") (sent data "regNo") (sent data "expNo")
    (sent data "date") (sent data "title") (sent data "aim")
    (sent data "algorithm") (sent data "program") (sent data "output")
    (sent data "result") t.

Definition complete (data : save_request) : Prop :=
  Forall (fun key => is_Some (fields data !! key)) columns.

Lemma bound_fields_complete (data : save_request) (t : Z) :
  complete data -> bound_fields data t = inr (row_of data t).
Proof.
  unfold complete, columns. rewrite !Forall_cons.
  intros ([v1 H1] & [v2 H2] & [v3 H3] & [v4 H4] & [v5 H5] & [v6 H6] & [v7 H7]
          & [v8 H8] & [v9 H9] & [v10 H10] & _).
  unfold bound_fields, row_of, sent, item.
  rewrite H1, H2, H3, H4, H5, H6, H7, H8, H9, H10. reflexivity.
Qed.

Lemma bound_fields_missing (data : save_request) (t : Z) :
  ~ complete data ->
  exists key, key ∈ columns /\ fields data !! key = None
              /\ bound_fields data t = inl (KeyError key).
Proof.
  intros Hn. unfold bound_fields, item.
  destruct (fields data !! "name"%string) eqn:H1;
    [|exists "name"%string; split; [set_solver | done]].
  destruct (fields data !! "regNo"%string) eqn:H2;
    [|exists "regNo"%string; split; [set_solver | done]].
  destruct (fields data !! "expNo"%string) eqn:H3;
    [|exists "expNo"%string; split; [set_solver | done]].
  destruct (fields data !! "date"%string) eqn:H4;
    [|exists "date"%string; split; [set_solver | done]].
  destruct (fields data !! "title"%string) eqn:H5;
    [|exists "title"%string; split; [set_solver | done]].
  destruct (fields data !! "aim"%string) eqn:H6;
    [|exists "aim"%string; split; [set_solver | done]].
  destruct (fields data !! "algorithm"%string) eqn:H7;
    [|exists "algorithm"%string; split; [set_solver | done]].
  destruct (fields data !! "program"%string) eqn:H8;
    [|exists "program"%string; split; [set_solver | done]].
  destruct (fields data !! "output"%string) eqn:H9;
    [|exists "output"%string; split; [set_solver | done]].
  destruct (fields data !! "result"%string) eqn:H10;
    [|exists "result"%string; split; [set_solver | done]].
  exfalso. apply Hn. unfold complete, columns.
  repeat (constructor; [eauto|]). constructor.
Qed.

(** Every [id] of the table was given by the counter. *)
Definition wf (d : db) : Prop :=
  0 <= seq d /\ forall i r, rows d !! i = Some r -> 0 < i <= seq d.

Lemma save_insert_eq (now : Z) (data : save_request) (d : db) :
  given_id data = None -> complete data ->
  save_experiment now data d
  = (inr tt, mkDb (<[seq d + 1 := row_of data now]> (rows d)) (seq d + 1)).
Proof.
  intros Hid Hc. unfold save_experiment.
  by rewrite Hid, (bound_fields_complete data now Hc).
Qed.

Lemma save_update_eq (now : Z) (data : save_request) (d : db) (i : Z) :
  given_id data = Some i -> complete data -> in_int64 i = true ->
  save_experiment now data d
  = (inr tt,
     match rows d !! i with
     | Some old => mkDb (<[i := row_of data (created_at old)]> (rows d)) (seq d)
     | None => d
     end).
Proof.
  intros Hid Hc Hi. unfold save_experiment. rewrite Hid. cbv zeta.
  rewrite (bound_fields_complete data _ Hc), Hi.
  by destruct (rows d !! i) as [old|].
Qed.

Lemma save_overflow_eq (now : Z) (data : save_request) (d : db) (i : Z) :
  given_id data = Some i -> complete data -> in_int64 i = false ->
  save_experiment now data d = (inl OverflowError, d).
Proof.
  intros Hid Hc Hi. unfold save_experiment. rewrite Hid. cbv zeta.
  by rewrite (bound_fields_complete data _ Hc), Hi.
Qed.

Lemma wf_fresh (d : db) : wf d -> rows d !! (seq d + 1) = None.
Proof.
  intros [_ Hwf]. destruct (rows d !! (seq d + 1)) as [r|] eqn:E; [|done].
  apply Hwf in E. lia.
Qed.

Lemma wf_insert_next (d : db) (r : experiment) :
  wf d -> wf (mkDb (<[seq d + 1 := r]> (rows d)) (seq d + 1)).
Proof.
  intros [H0 Hwf]. split; [cbn; lia|]. intros j r' Hj. cbn in *.
  destruct (decide (j = seq d + 1)) as [->|Hne]; [lia|].
  rewrite lookup_insert_ne in Hj by done. apply Hwf in Hj. lia.
Qed.

(** X16: a save without an [id], or with the [id] 0 or null, of a body that
    has the ten fields adds one row: its [id] is the one after the counter,
    which no row has; the row holds the values sent and the time of the
    save; every other row stays as it was. *)
Theorem save_inserts (now : Z) (data : save_request) (d : db) :
  wf d -> given_id data = None -> complete data ->
  exists d',
    save_experiment now data d = (inr tt, d')
    /\ rows d !! (seq d + 1) = None
    /\ rows d' !! (seq d + 1) = Some (row_of data now)
    /\ (forall j, j <> seq d + 1 -> rows d' !! j = rows d !! j)
    /\ seq d' = seq d + 1
    /\ wf d'.
Proof.
  intros Hwf Hid Hc. rewrite (save_insert_eq now data d Hid Hc).
  eexists. split; [reflexivity|]. cbn.
  split; [by apply wf_fresh|]. split; [apply lookup_insert_eq|].
  split; [intros j Hj; by apply lookup_insert_ne|].
  split; [done|]. by apply wf_insert_next.
Qed.

(** X17: a save with an [id] never adds a row.  With an [id] that is a
    signed 64-bit integer the answer is a success: when a row has the [id],
    its ten fields become the values sent and its time of creation stays;
    when no row has it nothing changes.  With an [id] outside that range the
    save fails with [OverflowError] and the table is left as it was. *)
Theorem save_updates (now : Z) (data : save_request) (d : db) (i : Z) :
  given_id data = Some i -> complete data ->
  (in_int64 i = true ->
   exists d',
     save_experiment now data d = (inr tt, d')
     /\ seq d' = seq d
     /\ (rows d !! i = None -> d' = d)
     /\ (forall old, rows d !! i = Some old ->
                     rows d' !! i = Some (row_of data (created_at old)))
     /\ (forall j, j <> i -> rows d' !! j = rows d !! j)
     /\ (forall j, is_Some (rows d' !! j) <-> is_Some (rows d !! j))) /\
  (in_int64 i = false -> save_experiment now data d = (inl OverflowError, d)).
Proof.
  intros Hid Hc. split; [|by apply save_overflow_eq].
  intros Hi. rewrite (save_update_eq now data d i Hid Hc Hi).
  eexists. split; [reflexivity|].
  destruct (rows d !! i) as [old|] eqn:Hrow; cbn.
  - split; [done|]. split; [done|].
    split; [intros old' [= <-]; apply lookup_insert_eq|].
    split; [intros j Hj; by apply lookup_insert_ne|].
    intros j. destruct (decide (j = i)) as [->|Hne].
    + rewrite lookup_insert_eq, Hrow. split; eauto.
    + by rewrite lookup_insert_ne.
  - repeat split; done.
Qed.

(** X18: a save of a body that lacks one of the ten fields fails with the
    [KeyError] of a field that is missing, with or without an [id], and the
    table is left as it was. *)
Theorem save_missing_field (now : Z) (data : save_request) (d : db) :
  ~ complete data ->
  exists key,
    key ∈ columns /\ fields data !! key = None
    /\ save_experiment now data d = (inl (KeyError key), d).
Proof.
  intros Hn. unfold save_experiment.
  destruct (given_id data) as [i|].
  - cbv zeta.
    destruct (bound_fields_missing data
                match rows d !! i with
                | Some old => created_at old
                | None => 0
                end Hn) as (k & Hk & Hm & ->).
    by exists k.
  - destruct (bound_fields_missing data now Hn) as (k & Hk & Hm & ->).
    by exists k.
Qed.

(** *** Sequences of saves and deletes *)

Inductive op : Type :=
  | Save (now : Z) (data : save_request)
  | Delete (i : Z).

Definition step (d : db) (o : op) : db :=
  match o with
  | Save now data => snd (save_experiment now data d)
  | Delete i => snd (delete_experiment i d)
  end.

Definition run (ops : list op) (d : db) : db := fold_left step ops d.

(** What a step keeps: the [id]s are within the counter, the counter does
    not go down, and an [id] within the counter that no row has is not
    given again. *)
Lemma step_keeps (d : db) (o : op) :
  wf d ->
  wf (step d o) /\ seq d <= seq (step d o)
  /\ (forall i, i <= seq d -> rows d !! i = None -> rows (step d o) !! i = None).
Proof.
  intros Hwf. destruct o as [now data | k]; cbn.
  - destruct (decide (complete data)) as [Hc | Hn].
    + destruct (given_id data) as [i|] eqn:Hid.
      * destruct (in_int64 i) eqn:Hrange;
          [|rewrite (save_overflow_eq now data d i Hid Hc Hrange); cbn;
            split; [done|]; split; [lia | done]].
        rewrite (save_update_eq now data d i Hid Hc Hrange). cbn.
        destruct (rows d !! i) as [old|] eqn:Hi; cbn.
        -- split; [|split; [lia|]].
           ++ split; [apply Hwf|]. intros j r Hj. cbn in Hj.
              destruct (decide (j = i)) as [->|Hne]; [by eapply Hwf|].
              rewrite lookup_insert_ne in Hj by done. by eapply Hwf.
           ++ intros j Hj Hnone.
              destruct (decide (j = i)) as [->|Hne]; [congruence|].
              by rewrite lookup_insert_ne.
        -- split; [done|]. split; [lia | done].
      * rewrite (save_insert_eq now data d Hid Hc). cbn.
        split; [by apply wf_insert_next|]. split; [lia|].
        intros j Hj Hnone. rewrite lookup_insert_ne by lia. done.
    + unfold save_experiment.
      destruct (given_id data) as [i|].
      * cbv zeta.
        destruct (bound_fields_missing data
                    match rows d !! i with
                    | Some old => created_at old
                    | None => 0
                    end Hn) as (k & _ & _ & ->).
        cbn. split; [done|]. split; [lia | done].
      * destruct (bound_fields_missing data now Hn) as (k & _ & _ & ->).
        cbn. split; [done|]. split; [lia | done].
  - split; [|split; [lia|]].
    + split; [apply Hwf|]. intros j r Hj. cbn in Hj.
      apply lookup_delete_Some in Hj as [_ Hj]. by eapply Hwf.
    + intros j _ Hnone. destruct (decide (k = j)) as [->|Hne].
      * apply lookup_delete_eq.
      * by rewrite lookup_delete_ne.
Qed.

Lemma run_keeps (ops : list op) (d : db) :
  wf d ->
  wf (run ops d) /\ seq d <= seq (run ops d)
  /\ (forall i, i <= seq d -> rows d !! i = None -> rows (run ops d) !! i = None).
Proof.
  revert d. induction ops as [|o ops IH]; intros d Hwf.
  - cbn. split; [done|]. split; [lia | done].
  - change (run (o :: ops) d) with (run ops (step d o)).
    destruct (step_keeps d o Hwf) as (Hwf' & Hseq & Hnone).
    destruct (IH (step d o) Hwf') as (Hwf'' & Hseq' & Hnone').
    split; [done|]. split; [lia|].
    intros i Hi Hn. apply Hnone'; [lia|]. by apply Hnone.
Qed.

(** X19: a deleted experiment does not come back.  Once a row is deleted,
    no later save or delete gives its [id] to a row again: an insert takes
    the [id] after the counter, and a save with the old [id] changes
    nothing. *)
Theorem deleted_never_returns (d : db) (i : Z) (ops : list op) :
  wf d -> is_Some (rows d !! i) ->
  rows (run ops (snd (delete_experiment i d))) !! i = None.
Proof.
  intros Hwf [r Hr]. pose proof (proj2 Hwf i r Hr) as Hi.
  assert (wf (snd (delete_experiment i d))) as Hwf'.
  { split; [apply Hwf|]. intros j r' Hj. cbn in Hj.
    apply lookup_delete_Some in Hj as [_ Hj]. by eapply Hwf. }
  destruct (run_keeps ops _ Hwf') as (_ & _ & Hnone).
  apply Hnone; cbn; [lia | apply lookup_delete_eq].
Qed.

(** X20: from the empty table, whatever saves and deletes are done, every
    [id] of the table is positive and at most the counter, so the [id] of
    the next insert is new. *)
Theorem ids_within_counter (ops : list op) :
  let d := run ops (init_db None) in
  (forall i r, rows d !! i = Some r -> 0 < i <= seq d)
  /\ rows d !! (seq d + 1) = None.
Proof.
  cbv zeta.
  assert (wf (init_db None)) as Hwf0 by (split; [done|]; intros i r Hi; cbn in Hi; done).
  destruct (run_keeps ops _ Hwf0) as (Hwf & _ & _).
  split; [apply Hwf | by apply wf_fresh].
Qed.

(** *** Examples *)

(** A body with the ten fields, all empty but the title. *)
Definition sample_fields : gmap string (option str) :=
  list_to_map
    [("name", Some []); ("regNo", Some []); ("expNo", Some []); ("date", Some []);
     ("title", Some (lit "Sum")); ("aim", Some []); ("algorithm", Some []);
     ("program", Some []); ("output", Some []); ("result", None)]%string.

Lemma sample_complete (i : option Z) : complete (mkSave i sample_fields).
Proof.
  unfold complete, columns.
  repeat (constructor; [vm_compute; eauto|]). constructor.
Qed.

Lemma wf_empty : wf (init_db None).
Proof. split; [done|]. intros i r Hi. cbn in Hi. done. Qed.

(** The first save into the empty table makes the row 1. *)
Lemma save_inserts_first :
  rows (snd (save_experiment 100 (mkSave None sample_fields) (init_db None))) !! 1
  = Some (row_of (mkSave None sample_fields) 100).
Proof.
  destruct (save_inserts 100 (mkSave None sample_fields) (init_db None))
    as (d' & Hs & _ & Hrow & _);
    [apply wf_empty | reflexivity | apply sample_complete |].
  rewrite Hs. exact Hrow.
Defined.

(** A save with the [id] 7 into the empty table changes nothing and
    succeeds; with the [id] 2^63 it fails. *)
Lemma save_updates_absent :
  save_experiment 100 (mkSave (Some 7) sample_fields) (init_db None)
  = (inr tt, init_db None)
  /\ save_experiment 100 (mkSave (Some (2 ^ 63)) sample_fields) (init_db None)
     = (inl OverflowError, init_db None).
Proof.
  split.
  - destruct (save_updates 100 (mkSave (Some 7) sample_fields) (init_db None) 7)
      as [Hin _]; [reflexivity | apply sample_complete |].
    destruct Hin as (d' & Hs & _ & Hsame & _); [reflexivity|].
    rewrite Hs, Hsame; reflexivity.
  - destruct (save_updates 100 (mkSave (Some (2 ^ 63)) sample_fields)
                (init_db None) (2 ^ 63))
      as [_ Hout]; [reflexivity | apply sample_complete |].
    by apply Hout.
Defined.

(** A body with no field at all fails and changes nothing. *)
Lemma save_missing_field_empty_body :
  snd (save_experiment 100 (mkSave None ∅) (init_db None)) = init_db None.
Proof.
  destruct (save_missing_field 100 (mkSave None ∅) (init_db None))
    as (key & _ & _ & Hs).
  - unfold complete, columns. intros Hc. inversion Hc as [|? ? [v Hv] _].
    cbn in Hv. rewrite lookup_empty in Hv. discriminate Hv.
  - by rewrite Hs.
Defined.

(** Row 1 is saved and deleted; two more saves do not bring it back. *)
Lemma deleted_never_returns_first :
  let d := snd (save_experiment 100 (mkSave None sample_fields) (init_db None)) in
  rows (run [Save 101 (mkSave None sample_fields);
             Save 102 (mkSave (Some 1) sample_fields)]
            (snd (delete_experiment 1 d))) !! 1 = None.
Proof.
  cbv zeta.
  rewrite (save_insert_eq 100 (mkSave None sample_fields) (init_db None) eq_refl
             (sample_complete None)).
  apply deleted_never_returns.
  - apply wf_insert_next, wf_empty.
  - cbn. rewrite lookup_insert_eq. eauto.
Defined.

End DbFacts.
